(** * Tabular Q-learning (q_learning.py): model and verification

    The development follows src/q_learning.py.  Real numbers (numpy
    float64 cells) are modelled by exact rationals [Q]; rounding is not
    modelled.  Python exceptions are values of [exn]; the unbounded
    [itertools.count()] loop runs on fuel, and running out of fuel is
    the outcome [Diverge].  Console printing is cosmetic and left out. *)

From Stdlib Require Import QArith Lqa Lia.
From stdpp Require Import gmap list.

Set Default Proof Using "Type".
Local Open Scope Q_scope.

(** ** Exceptions and outcomes *)

Inductive exn : Type :=
  | ValueError
  | IndexError
  | ZeroDivisionError
  | EnvError (code : nat).

Inductive outcome (A : Type) : Type :=
  | Ret (a : A)
  | Raise (e : exn)
  | Diverge.

Arguments Ret {A} a.
Arguments Raise {A} e.
Arguments Diverge {A}.

(** An exception or a divergence short-cuts the rest of the computation:
    there is no handler anywhere in the program. *)
Definition obind {A B : Type} (k : A -> outcome B) (m : outcome A) : outcome B :=
  match m with
  | Ret a => k a
  | Raise e => Raise e
  | Diverge => Diverge
  end.

#[global] Instance outcome_ret : MRet outcome := @Ret.
#[global] Instance outcome_bind : MBind outcome := @obind.

(** ** The numpy operations the program uses

    numpy is a library, not part of the program; each operation is
    written after numpy's documented behaviour on one-dimensional
    arrays, errors included. *)

Module np.

(** [np.zeros(n)], [np.ones(n)] *)
Definition zeros (n : nat) : list Q := replicate n 0.
Definition ones (n : nat) : list Q := replicate n 1.

Definition Qlt_bool (x y : Q) : bool := negb (Qle_bool y x).

(** [np.argmax]: index of the first occurrence of the maximum;
    ValueError on an empty sequence. *)
Fixpoint argmax_from (best : Q) (besti i : nat) (l : list Q) : nat :=
  match l with
  | [] => besti
  | x :: t =>
      if Qlt_bool best x then argmax_from x i (S i) t
      else argmax_from best besti (S i) t
  end.

Definition argmax (l : list Q) : outcome nat :=
  match l with
  | [] => Raise ValueError
  | x :: t => Ret (argmax_from x 0%nat 1%nat t)
  end.

(** [np.max] of a scalar is that scalar. *)
Definition max (x : Q) : Q := x.

(** [a[i]] for a one-dimensional array and a non-negative index. *)
Definition getitem (a : list Q) (i : nat) : outcome Q :=
  match a !! i with
  | Some x => Ret x
  | None => Raise IndexError
  end.

(** [a[i] = v] *)
Definition setitem (a : list Q) (i : nat) (v : Q) : outcome (list Q) :=
  if (i <? length a)%nat then Ret (<[i := v]> a) else Raise IndexError.

Definition sum (l : list Q) : Q := fold_right Qplus 0 l.

Fixpoint cumsum_from (acc : Q) (l : list Q) : list Q :=
  match l with
  | [] => []
  | x :: t => (acc + x) :: cumsum_from (acc + x) t
  end.

Definition cumsum (l : list Q) : list Q := cumsum_from 0 l.

(** [cdf.searchsorted(u, side='right')]: the number of leading
    entries that are [<= u] in a sorted array. *)
Fixpoint searchsorted_right (cdf : list Q) (u : Q) : nat :=
  match cdf with
  | [] => 0%nat
  | c :: t => if Qle_bool c u then S (searchsorted_right t u) else 0%nat
  end.

Section Random.
(** The pseudo-random generator: a state (the seed) and the draw
    of one uniform sample, [random_sample], meant to lie in [0,1). *)
Variable G : Type.
Variable random_sample : G -> Q * G.

(** [np.random.choice(a, p=p)] for an integer [a]: the size and
    probability checks of numpy, then inversion of the cumulative
    distribution at one uniform sample. *)
Definition choice (a : nat) (p : list Q) (g : G) : outcome (nat * G) :=
  if (a =? 0)%nat then Raise ValueError
  else if negb (length p =? a)%nat then Raise ValueError
  else if existsb (fun x => Qlt_bool x 0) p then Raise ValueError
  else if negb (Qeq_bool (sum p) 1) then Raise ValueError
  else
    let cdf := cumsum p in
    let cdf := (fun c => c / List.last cdf 0) <$> cdf in
    let '(u, g') := random_sample g in
    Ret (searchsorted_right cdf u, g').
End Random.

End np.

(** ** The action-value table: [defaultdict(lambda: np.zeros(nA))] *)

Section Table.
Context {K : Type} `{Countable K}.

Record defaultdict : Type := mkdd {
  factory_nA : nat;              (* the default factory is [np.zeros(factory_nA)] *)
  data : gmap K (list Q)
}.

(** [Q[s]]: a hit returns the stored row; a miss stores a fresh
    zero row under [s] and returns it. *)
Definition dd_getitem (d : defaultdict) (s : K) : list Q * defaultdict :=
  match data d !! s with
  | Some row => (row, d)
  | None =>
      let row := np.zeros (factory_nA d) in
      (row, mkdd (factory_nA d) (<[s := row]> (data d)))
  end.

(** The row a lookup of [s] yields, as a value. *)
Definition dd_read (d : defaultdict) (s : K) : list Q := fst (dd_getitem d s).

(** In-place write into the row stored under [s]. *)
Definition dd_store (d : defaultdict) (s : K) (row : list Q) : defaultdict :=
  mkdd (factory_nA d) (<[s := row]> (data d)).

(** *** make_epsilon_greedy_policy *)

Definition policy_fn (tbl : defaultdict) (epsilon : Q) (nA : nat) (observation : K)
  : outcome (list Q * defaultdict) :=
  let policy := np.ones nA in
  if (nA =? 0)%nat then Raise ZeroDivisionError
  else
    let policy := (fun x => x * (epsilon / inject_Z (Z.of_nat nA))) <$> policy in
    let '(row, tbl) := dd_getitem tbl observation in
    best_action ← np.argmax row;
    cur ← np.getitem policy best_action;
    policy ← np.setitem policy best_action (cur + (1 - epsilon));
    Ret (policy, tbl).

(** The closure returned by [make_epsilon_greedy_policy(Q, epsilon, nA)];
    the table is passed at each call since the closure reads the live
    table by reference. *)
Definition make_epsilon_greedy_policy (epsilon : Q) (nA : nat)
  : defaultdict -> K -> outcome (list Q * defaultdict) :=
  fun tbl observation => policy_fn tbl epsilon nA observation.

End Table.

Arguments defaultdict K {_ _}.

(** ** The environment collaborator and the statistics *)

(** [EpisodeStats = namedtuple("Stats", ["episode_lengths", "episode_rewards"])] *)
Record EpisodeStats : Type := mkStats {
  episode_lengths : list Q;
  episode_rewards : list Q
}.

Section Environment.
Context {K : Type} `{Countable K}.

(** An environment object: its mutable state, the attribute [nA]
    (a Python int that does not change while the program runs), and
    the methods [reset] and [step], each of which may raise.  The
    fourth component of the tuple [step] returns is never read by the
    program and is left out. *)
Record Env : Type := mkEnv {
  env_state : Type;
  nA : nat;
  reset : env_state -> outcome (K * env_state);
  step : env_state -> nat -> outcome (K * Q * bool * env_state)
}.

(** The calls made to the environment, in order, with what they returned. *)
Inductive event : Type :=
  | EvReset (s : K)
  | EvStep (action : nat) (next_state : K) (reward : Q) (done : bool).

End Environment.

Arguments Env K : clear implicits.
Arguments event K : clear implicits.

(** ** q_learning *)

Section Learning.
Context {K : Type} `{Countable K}.
Variable G : Type.
Variable random_sample : G -> Q * G.
Variable env : Env K.

(** Everything the run reads and writes: the table [Q], [stats], the
    environment object, the generator of [np.random], and (as a
    record of the interaction only, never read by the program) the
    history of the environment calls. *)
Record world : Type := mkW {
  w_Q : defaultdict K;
  w_stats : EpisodeStats;
  w_env : env_state env;
  w_rng : G;
  w_trace : list (event K)
}.

(** Lines 81-82:
    [Q[state][action] += alpha * (reward + discount_factor *
       np.max(Q[next_state][best_next_action]) - Q[state][action])].
    The target row and the old cell are read first, then the right-hand
    side is evaluated, then the cell of that same row is written. *)
Definition td_update (discount_factor alpha : Q) (state : K) (action : nat)
    (reward : Q) (next_state : K) (best_next_action : nat) (tbl : defaultdict K)
  : outcome (defaultdict K) :=
  let '(row, tbl) := dd_getitem tbl state in
  old ← np.getitem row action;
  let '(nrow, tbl) := dd_getitem tbl next_state in
  qn ← np.getitem nrow best_next_action;
  let '(row', tbl) := dd_getitem tbl state in
  cur ← np.getitem row' action;
  row ← np.setitem row action
        (old + alpha * (reward + discount_factor * np.max qn - cur));
  Ret (dd_store tbl state row).

Section Run.
Variables (discount_factor alpha epsilon : Q).

Definition policy := make_epsilon_greedy_policy (K := K) epsilon (nA env).

(** One iteration of the loop [for i in itertools.count()], lines 71-87;
    returns [done] and [next_state]. *)
Definition step_body (i_episode i : nat) (state : K) (w : world)
  : outcome (bool * K * world) :=
  '(action_probs, tbl) ← policy (w_Q w) state;
  '(action, g) ← np.choice G random_sample 4 action_probs (w_rng w);
  '(next_state, reward, done, e) ← step env (w_env w) action;
  let trace := w_trace w ++ [EvStep action next_state reward done] in
  let '(nrow, tbl) := dd_getitem tbl next_state in
  best_next_action ← np.argmax nrow;
  r ← np.getitem (episode_rewards (w_stats w)) i_episode;
  rewards ← np.setitem (episode_rewards (w_stats w)) i_episode (r + reward);
  lengths ← np.setitem (episode_lengths (w_stats w)) i_episode
              (inject_Z (Z.of_nat i));
  tbl ← td_update discount_factor alpha state action reward
          next_state best_next_action tbl;
  Ret (done, next_state, mkW tbl (mkStats lengths rewards) e g trace).

(** The loop over [itertools.count()], from counter [i]. *)
Fixpoint steps (fuel : nat) (i_episode i : nat) (state : K) (w : world)
  : outcome world :=
  match fuel with
  | O => Diverge
  | S fuel =>
      '(done, next_state, w) ← step_body i_episode i state w;
      if done : bool then Ret w
      else steps fuel i_episode (S i) next_state w
  end.

(** The body of [for i_episode in range(num_episodes)], lines 68-87. *)
Definition episode (fuel : nat) (i_episode : nat) (w : world) : outcome world :=
  '(state, e) ← reset env (w_env w);
  steps fuel i_episode 0 state
    (mkW (w_Q w) (w_stats w) e (w_rng w) (w_trace w ++ [EvReset state])).

Fixpoint for_episodes (fuel : nat) (range : list nat) (w : world)
  : outcome world :=
  match range with
  | [] => Ret w
  | i_episode :: range =>
      w ← episode fuel i_episode w;
      for_episodes fuel range w
  end.

(** The world at line 62, before the first episode. *)
Definition initial_world (num_episodes : nat) (e0 : env_state env) (g0 : G)
  : world :=
  mkW (mkdd (nA env) ∅)
      (mkStats (np.zeros num_episodes) (np.zeros num_episodes))
      e0 g0 [].

Definition q_learning_world (fuel : nat) (num_episodes : nat)
    (e0 : env_state env) (g0 : G) : outcome world :=
  for_episodes fuel (seq 0 num_episodes) (initial_world num_episodes e0 g0).

End Run.

(** [q_learning(env, num_episodes, discount_factor, alpha, epsilon)];
    [fuel] bounds the number of steps of each episode, [e0] and [g0]
    are the environment object and the seed at the call. *)
Definition q_learning (fuel : nat) (e0 : env_state env) (g0 : G)
    (num_episodes : nat) (discount_factor alpha epsilon : Q)
  : outcome (defaultdict K * EpisodeStats) :=
  w ← q_learning_world discount_factor alpha epsilon fuel num_episodes e0 g0;
  Ret (w_Q w, w_stats w).

End Learning.

(** The default arguments [discount_factor=1.0, alpha=0.5, epsilon=0.1]. *)
Definition default_discount_factor : Q := 1.
Definition default_alpha : Q := 1 # 2.
Definition default_epsilon : Q := 1 # 10.

(** * The vocabulary of the specification *)

(** [k] is the lowest index at which [l] attains its maximum. *)
Definition first_max (l : list Q) (k : nat) : Prop :=
  exists m, l !! k = Some m
    /\ (forall j y, l !! j = Some y -> y <= m)
    /\ (forall j y, (j < k)%nat -> l !! j = Some y -> y < m).

Section Points.
Context {K : Type}.

(** Where the control is: at the head of the episode loop, about to
    start episode [i_episode] (or to return, when [i_episode] is
    [num_episodes]), or at the head of the step loop of episode
    [i_episode] with counter [i] and current [state]. *)
Inductive point : Type :=
  | Between (i_episode : nat)
  | Inside (i_episode i : nat) (state : K).

End Points.

Arguments point K : clear implicits.

Section Vocabulary.
Context {K : Type} `{Countable K}.

(** Rows of the table all have [n] cells, stored or default. *)
Definition table_wf (n : nat) (tbl : defaultdict K) : Prop :=
  factory_nA tbl = n
  /\ forall s row, data tbl !! s = Some row -> length row = n.

(** The state an environment call returned. *)
Definition event_state (ev : event K) : K :=
  match ev with
  | EvReset s => s
  | EvStep _ s _ _ => s
  end.

(** [s] was returned by [reset] or [step] at some call of the history. *)
Definition visited (trace : list (event K)) (s : K) : Prop :=
  s ∈ event_state <$> trace.

(** The rewards [step] returned, in order. *)
Definition trace_rewards (trace : list (event K)) : list Q :=
  omap (fun ev => match ev with
                  | EvReset _ => None
                  | EvStep _ _ r _ => Some r
                  end) trace.

(** The episode a point belongs to, and the first episode not yet begun. *)
Definition next_episode (p : point K) : nat :=
  match p with
  | Between i_episode => i_episode
  | Inside i_episode _ _ => S i_episode
  end.

(** The event is a call of [step]. *)
Definition is_step (ev : event K) : Prop :=
  match ev with
  | EvReset _ => False
  | EvStep _ _ _ _ => True
  end.

(** [ep] is the history of one whole episode, a reset followed by
    its steps, and the entries of index [idx] hold what the code
    records of it: the counter of the last step, and the sum of the
    rewards. *)
Definition episode_record (stats : EpisodeStats) (idx : nat)
    (ep : list (event K)) : Prop :=
  exists s0 evs,
    ep = EvReset s0 :: evs
    /\ evs <> []
    /\ Forall is_step evs
    /\ episode_lengths stats !! idx
       = Some (inject_Z (Z.of_nat (length evs) - 1))
    /\ exists v, episode_rewards stats !! idx = Some v
                 /\ v == np.sum (trace_rewards evs).

Variable G : Type.
Variable random_sample : G -> Q * G.
Variable env : Env K.
Variables (discount_factor alpha epsilon : Q).

Local Abbreviation world := (world G env).
Local Abbreviation step_body :=
  (step_body G random_sample env discount_factor alpha epsilon).
Local Abbreviation steps :=
  (steps G random_sample env discount_factor alpha epsilon).
Local Abbreviation for_episodes :=
  (for_episodes G random_sample env discount_factor alpha epsilon).
Local Abbreviation policy := (policy env epsilon).

(** The value the update of lines 81-82 writes. *)
Definition td_target (old reward max_next : Q) : Q :=
  old + alpha * (reward + discount_factor * max_next - old).

(** Everything one returning iteration of the loop does. *)
Record step_effect (i_episode i : nat) (state : K) (w : world)
    (done : bool) (next_state : K) (w' : world)
    (action : nat) (reward : Q) : Prop := {
  se_policy : exists probs tbl,
    policy (w_Q _ _ w) state = Ret (probs, tbl)
    /\ np.choice G random_sample 4 probs (w_rng _ _ w)
       = Ret (action, w_rng _ _ w');
  se_env :
    step env (w_env _ _ w) action
    = Ret (next_state, reward, done, w_env _ _ w');
  se_trace :
    w_trace _ _ w' = w_trace _ _ w ++ [EvStep action next_state reward done];
  se_rewards : exists r0,
    episode_rewards (w_stats _ _ w) !! i_episode = Some r0
    /\ episode_rewards (w_stats _ _ w')
       = <[i_episode := r0 + reward]> (episode_rewards (w_stats _ _ w));
  se_lengths :
    (i_episode < length (episode_lengths (w_stats _ _ w)))%nat
    /\ episode_lengths (w_stats _ _ w')
       = <[i_episode := inject_Z (Z.of_nat i)]> (episode_lengths (w_stats _ _ w));
  se_update : exists old max_next b,
    dd_read (w_Q _ _ w) state !! action = Some old
    /\ first_max (dd_read (w_Q _ _ w) next_state) b
    /\ dd_read (w_Q _ _ w) next_state !! b = Some max_next
    /\ dd_read (w_Q _ _ w') state
       = <[action := td_target old reward max_next]> (dd_read (w_Q _ _ w) state);
  se_frame :
    forall s, s <> state -> dd_read (w_Q _ _ w') s = dd_read (w_Q _ _ w) s;
  se_factory :
    factory_nA (w_Q _ _ w') = factory_nA (w_Q _ _ w);
  se_dom :
    dom (data (w_Q _ _ w'))
    = {[ state ]} ∪ ({[ next_state ]} ∪ dom (data (w_Q _ _ w)))
}.

(** Two worlds agree on the statistics of episode [j]. *)
Definition same_entry (j : nat) (w w' : world) : Prop :=
  episode_lengths (w_stats _ _ w') !! j = episode_lengths (w_stats _ _ w) !! j
  /\ episode_rewards (w_stats _ _ w') !! j = episode_rewards (w_stats _ _ w) !! j.

Section Reach.
Variables (num_episodes : nat) (e0 : env_state env) (g0 : G).

(** The points a run of [q_learning] passes through, with the
    world at each. *)
Inductive reachable : point K -> world -> Prop :=
  | reach_start :
      reachable (Between 0) (initial_world G env num_episodes e0 g0)
  | reach_reset i_episode w state e :
      reachable (Between i_episode) w ->
      (i_episode < num_episodes)%nat ->
      reset env (w_env _ _ w) = Ret (state, e) ->
      reachable (Inside i_episode 0 state)
        (mkW _ _ (w_Q _ _ w) (w_stats _ _ w) e (w_rng _ _ w)
             (w_trace _ _ w ++ [EvReset state]))
  | reach_step i_episode i state w next_state w' :
      reachable (Inside i_episode i state) w ->
      step_body i_episode i state w = Ret (false, next_state, w') ->
      reachable (Inside i_episode (S i) next_state) w'
  | reach_done i_episode i state w next_state w' :
      reachable (Inside i_episode i state) w ->
      step_body i_episode i state w = Ret (true, next_state, w') ->
      reachable (Between (S i_episode)) w'.

(** The rest of the run from a point. *)
Definition resume (fuel : nat) (p : point K) (w : world) : outcome world :=
  match p with
  | Between i_episode =>
      for_episodes fuel (seq i_episode (num_episodes - i_episode)) w
  | Inside i_episode i state =>
      w ← steps (fuel - i) i_episode i state w;
      for_episodes fuel (seq (S i_episode) (num_episodes - S i_episode)) w
  end.

End Reach.

End Vocabulary.

(** The largest finite float64 and the smallest positive normal one. *)
Definition float64_max : Q := inject_Z (2 ^ 1024 - 2 ^ 971).
Definition float64_min_normal : Q := 1 # (2 ^ 1022).

(** [x] converts to a finite float64: numpy and Python raise
    OverflowError on a number beyond this range. *)
Definition in_float64_range (x : Q) : Prop :=
  - float64_max <= x <= float64_max.

Section RunVocabulary.
Context {K : Type} `{Countable K}.

(** A call of [step] that did not end the episode. *)
Definition is_open_step (ev : event K) : Prop :=
  match ev with
  | EvStep _ _ _ false => True
  | _ => False
  end.

(** The history of one episode: a reset, steps that return
    [done = False], and one last step that returns [done = True]. *)
Definition episode_shape (ep : list (event K)) : Prop :=
  exists s0 evs a s r,
    ep = EvReset s0 :: evs ++ [EvStep a s r true]
    /\ Forall is_open_step evs.

(** The state the environment returned last, [prev] if it returned
    none yet. *)
Definition last_state (prev : option K) (trace : list (event K)) : option K :=
  match last trace with
  | Some ev => Some (event_state ev)
  | None => prev
  end.

(** The states the run stepped from: for each call of [step], the
    state the environment had returned just before it. *)
Fixpoint sources (prev : option K) (trace : list (event K)) : list K :=
  match trace with
  | [] => []
  | EvReset s :: trace => sources (Some s) trace
  | EvStep _ s' _ _ :: trace =>
      match prev with
      | Some s => s :: sources (Some s') trace
      | None => sources (Some s') trace
      end
  end.

(** The action of a call of [step] is below [n]. *)
Definition action_below (n : nat) (ev : event K) : Prop :=
  match ev with
  | EvReset _ => True
  | EvStep a _ _ _ => (a < n)%nat
  end.

Variable G : Type.
Variable random_sample : G -> Q * G.
Variable env : Env K.
Variables (discount_factor alpha epsilon : Q).

(** The generator after [n] draws. *)
Definition draws (n : nat) (g : G) : G :=
  Nat.iter n (fun g => snd (random_sample g)) g.

(** At the point [p] the next call to the environment raises [x]. *)
Definition env_raises_at (num_episodes : nat) (p : point K)
    (w : world G env) (x : exn) : Prop :=
  match p with
  | Between i_episode =>
      (i_episode < num_episodes)%nat /\ reset env (w_env _ _ w) = Raise x
  | Inside i_episode i state =>
      exists probs tbl action g,
        policy env epsilon (w_Q _ _ w) state = Ret (probs, tbl)
        /\ np.choice G random_sample 4 probs (w_rng _ _ w) = Ret (action, g)
        /\ step env (w_env _ _ w) action = Raise x
  end.

End RunVocabulary.

(** ** Concrete environments and a generator, for evaluation *)

Module Examples.

(** A small linear congruential generator; its samples lie in [0,1). *)
Definition lcg (g : N) : Q * N :=
  (Z.of_N (g mod 8) # 8, ((5 * g + 3) mod 8)%N).

(** One decision state [0] and a terminal state [1], [n] actions:
    action 0 ends the episode with reward [rw]; every other action
    stays in state 0 with reward 0. *)
Definition gate (n : nat) (rw : Q) : Env nat :=
  {| env_state := unit;
     nA := n;
     reset := fun _ => Ret (0%nat, tt);
     step := fun _ action =>
       match action with
       | O => Ret (1%nat, rw, true, tt)
       | S _ => Ret (0%nat, 0, false, tt)
       end |}.

(** Four actions; the environment counts its calls and raises on the
    call number [k] (resets and steps alike); before that it behaves
    as [gate 4 1]. *)
Definition failing (k : nat) : Env nat :=
  {| env_state := nat;
     nA := 4;
     reset := fun c =>
       if (c =? k)%nat then Raise (EnvError 7) else Ret (0%nat, S c);
     step := fun c action =>
       if (c =? k)%nat then Raise (EnvError 7)
       else match action with
            | O => Ret (1%nat, 1, true, S c)
            | S _ => Ret (0%nat, 0, false, S c)
            end |}.

(** The table of the update scenario: [Q[0] = [0, 0]], [Q[1] = [2, 3]]. *)
Definition scenario_table : defaultdict nat :=
  mkdd 2 (<[1%nat := [2; 3]]> (<[0%nat := [0; 0]]> ∅)).

(** The world a run of one episode on [gate 4 1] returns (seed 0,
    default parameters, at most 5 steps per episode). *)
Definition gate_world : world N (gate 4 1) :=
  Eval vm_compute in
    match q_learning_world N lcg (gate 4 1) default_discount_factor
            default_alpha default_epsilon 5 1 tt 0%N with
    | Ret w => w
    | _ => initial_world N (gate 4 1) 1 tt 0%N
    end.

(** The world at the head of the step loop of episode 0 on
    [failing 1], after the reset. *)
Definition failing_world : world N (failing 1) :=
  mkW N (failing 1) (mkdd 4 ∅) (mkStats (np.zeros 2) (np.zeros 2))
      1%nat 0%N [EvReset 0%nat].

End Examples.

Module MoreExamples.

(** A table whose row for state 0 has three cells, the largest last. *)
Definition long_row_table : defaultdict nat :=
  mkdd 3 (<[0%nat := [1; 2; 5]]> ∅).

(** Four actions, rewards 1 (action 0, which ends the episode) and 0. *)
Definition unit_gate : Env nat := Examples.gate 4 1.

(** The world at the head of the step loop of episode 0 on
    [unit_gate], after the reset. *)
Definition started_world : world N unit_gate :=
  mkW N unit_gate (mkdd 4 ∅) (mkStats (np.zeros 1) (np.zeros 1))
      tt 0%N [EvReset 0%nat].

End MoreExamples.

(** * Verification *)

(** ** Outcomes *)

Lemma bind_Ret_inv {A B : Type} (m : outcome A) (k : A -> outcome B) (b : B) :
  (m ≫= k) = Ret b -> exists a, m = Ret a /\ k a = Ret b.
Proof. destruct m as [a| |]; simpl; [eauto | discriminate | discriminate]. Qed.

Lemma bind_Ret {A B : Type} (a : A) (k : A -> outcome B) : (Ret a ≫= k) = k a.
Proof. reflexivity. Qed.

Lemma bind_Raise {A B : Type} (e : exn) (k : A -> outcome B) :
  (Raise e ≫= k) = Raise e.
Proof. reflexivity. Qed.

(** Equations between unions of finite sets, by membership. *)
Ltac union_eq :=
  apply set_eq; intros ?;
  rewrite ?elem_of_union, ?elem_of_singleton; tauto.

(** Splits a hypothesis [(x ← m; k) = Ret r] into its two halves. *)
Tactic Notation "bind_inv" hyp(H) "as" simple_intropattern(a) ident(Ha) :=
  apply bind_Ret_inv in H; destruct H as (a & Ha & H).

(** ** Arrays *)

Lemma getitem_Ret (a : list Q) (i : nat) (x : Q) :
  np.getitem a i = Ret x <-> a !! i = Some x.
Proof.
  unfold np.getitem. destruct (a !! i) as [y|]; split; intros E;
    try discriminate; congruence.
Qed.

Lemma setitem_Ret (a : list Q) (i : nat) (v : Q) (a' : list Q) :
  np.setitem a i v = Ret a' <-> (i < length a)%nat /\ a' = <[i := v]> a.
Proof.
  unfold np.setitem. destruct (Nat.ltb_spec i (length a)); split.
  - intros E. injection E as <-. auto.
  - intros [_ ->]. reflexivity.
  - discriminate.
  - intros [Hlt _]. lia.
Qed.

Lemma Qlt_bool_true (x y : Q) : np.Qlt_bool x y = true <-> x < y.
Proof.
  unfold np.Qlt_bool. rewrite negb_true_iff.
  destruct (Qle_bool y x) eqn:E.
  - apply Qle_bool_iff in E. split; [discriminate | intros L; lra].
  - split; [intros _ | reflexivity].
    apply Qnot_le_lt. intros L. apply Qle_bool_iff in L. congruence.
Qed.

Lemma Qlt_bool_false (x y : Q) : np.Qlt_bool x y = false <-> y <= x.
Proof.
  unfold np.Qlt_bool. rewrite negb_false_iff. apply Qle_bool_iff.
Qed.

Lemma argmax_from_spec (l pre : list Q) (best : Q) (besti : nat) :
  pre !! besti = Some best ->
  (forall j y, pre !! j = Some y -> y <= best) ->
  (forall j y, (j < besti)%nat -> pre !! j = Some y -> y < best) ->
  first_max (pre ++ l) (np.argmax_from best besti (length pre) l).
Proof.
  revert pre best besti.
  induction l as [|x t IH]; intros pre best besti Hb Hle Hlt; simpl.
  - rewrite app_nil_r. exists best. auto.
  - replace (pre ++ x :: t) with ((pre ++ [x]) ++ t)
      by (rewrite <- app_assoc; reflexivity).
    replace (S (length pre)) with (length (pre ++ [x]))
      by (rewrite length_app; simpl; lia).
    destruct (np.Qlt_bool best x) eqn:E.
    + apply Qlt_bool_true in E.
      replace (length pre) with (length pre + 0)%nat at 1 by lia.
      apply IH.
      * rewrite lookup_app_r by lia.
        replace (length pre + 0 - length pre)%nat with 0%nat by lia.
        reflexivity.
      * intros j y Hj. destruct (decide (j < length pre)%nat) as [Hl|Hl].
        -- rewrite lookup_app_l in Hj by assumption.
           apply Hle in Hj. lra.
        -- rewrite lookup_app_r in Hj by lia.
           destruct (j - length pre)%nat; simpl in Hj; [|discriminate].
           injection Hj as <-. lra.
      * intros j y Hj Hy. rewrite lookup_app_l in Hy by lia.
        apply Hle in Hy. lra.
    + apply Qlt_bool_false in E. apply IH.
      * apply lookup_lt_Some in Hb as Hb'. rewrite lookup_app_l by assumption.
        exact Hb.
      * intros j y Hj. destruct (decide (j < length pre)%nat) as [Hl|Hl].
        -- rewrite lookup_app_l in Hj by assumption. eauto.
        -- rewrite lookup_app_r in Hj by lia.
           destruct (j - length pre)%nat; simpl in Hj; [|discriminate].
           injection Hj as <-. exact E.
      * intros j y Hj Hy. apply lookup_lt_Some in Hb as Hb'.
        rewrite lookup_app_l in Hy by lia. eauto.
Qed.

Lemma argmax_spec (l : list Q) (k : nat) :
  np.argmax l = Ret k -> first_max l k.
Proof.
  destruct l as [|x t]; simpl; [discriminate|].
  intros E. injection E as <-.
  apply (argmax_from_spec t [x] x 0).
  - reflexivity.
  - intros [|j] y Hj; simpl in Hj; [injection Hj as <-; lra | discriminate].
  - intros j y Hj. lia.
Qed.

Lemma argmax_total (l : list Q) :
  l <> [] -> exists k, np.argmax l = Ret k.
Proof. destruct l; [congruence | simpl; eauto]. Qed.

Lemma first_max_lt (l : list Q) (k : nat) : first_max l k -> (k < length l)%nat.
Proof. intros (m & Hk & _). eapply lookup_lt_Some; eassumption. Qed.

Lemma sum_replicate (c : Q) (n : nat) :
  np.sum (replicate n c) == inject_Z (Z.of_nat n) * c.
Proof.
  induction n as [|n IH].
  - change (inject_Z (Z.of_nat 0)) with 0. unfold np.sum. simpl. lra.
  - rewrite Nat2Z.inj_succ. unfold Z.succ. rewrite inject_Z_plus.
    simpl replicate. unfold np.sum in *. simpl fold_right. rewrite IH.
    change (inject_Z 1) with 1. lra.
Qed.

Lemma sum_insert (l : list Q) (k : nat) (x v : Q) :
  l !! k = Some x -> np.sum (<[k := v]> l) == np.sum l - x + v.
Proof.
  revert k. induction l as [|y t IH]; intros [|k] Hk; simpl in Hk; try discriminate.
  - injection Hk as ->. unfold np.sum. simpl. lra.
  - unfold np.sum in *. simpl. rewrite (IH k Hk). lra.
Qed.

Lemma inject_nat_pos (n : nat) : (0 < n)%nat -> 0 < inject_Z (Z.of_nat n).
Proof.
  intros Hn. change 0 with (inject_Z 0). rewrite <- Zlt_Qlt. lia.
Qed.

(** ** Sampling *)

Lemma last_default (l : list Q) (d : Q) :
  l <> [] -> last l = Some (List.last l d).
Proof.
  induction l as [|x t IH]; intros Hne; [congruence|].
  destruct t as [|y t]; [reflexivity|].
  change (last (x :: y :: t)) with (last (y :: t)).
  change (List.last (x :: y :: t) d) with (List.last (y :: t) d).
  apply IH. discriminate.
Qed.

Lemma cumsum_from_length (acc : Q) (l : list Q) :
  length (np.cumsum_from acc l) = length l.
Proof.
  revert acc. induction l as [|x t IH]; intros acc; simpl; [reflexivity|].
  rewrite IH. reflexivity.
Qed.

Lemma cumsum_from_last (acc d : Q) (l : list Q) :
  l <> [] -> List.last (np.cumsum_from acc l) d == acc + np.sum l.
Proof.
  revert acc. induction l as [|x t IH]; intros acc Hne; [congruence|].
  destruct t as [|y t].
  - unfold np.sum. simpl. lra.
  - change (np.cumsum_from acc (x :: y :: t))
      with ((acc + x) :: np.cumsum_from (acc + x) (y :: t)).
    change (List.last ((acc + x) :: np.cumsum_from (acc + x) (y :: t)) d)
      with (List.last (np.cumsum_from (acc + x) (y :: t)) d).
    rewrite IH by discriminate. unfold np.sum. simpl. lra.
Qed.

Lemma searchsorted_right_lt (cdf : list Q) (u c : Q) :
  last cdf = Some c -> u < c ->
  (np.searchsorted_right cdf u < length cdf)%nat.
Proof.
  induction cdf as [|x t IH]; intros Hlast Hu; [discriminate|].
  simpl. destruct (Qle_bool x u) eqn:E; [|lia].
  apply Qle_bool_iff in E. destruct t as [|y t].
  - simpl in Hlast. injection Hlast as ->. lra.
  - apply -> Nat.succ_lt_mono. apply IH; [exact Hlast | exact Hu].
Qed.

(** What [np.random.choice] checks before it samples, and the range
    of the sample when the generator draws from [0,1). *)
Lemma choice_Ret (G : Type) (random_sample : G -> Q * G)
    (a : nat) (p : list Q) (g g' : G) (k : nat) :
  np.choice G random_sample a p g = Ret (k, g') ->
  a <> 0%nat /\ length p = a /\ np.sum p == 1
  /\ g' = snd (random_sample g)
  /\ (fst (random_sample g) < 1 -> (k < a)%nat).
Proof.
  unfold np.choice. intros E.
  destruct (Nat.eqb_spec a 0) as [|Ha]; [discriminate|].
  destruct (Nat.eqb_spec (length p) a) as [Hlen|]; [|discriminate].
  simpl in E.
  destruct (existsb (fun x => np.Qlt_bool x 0) p); [discriminate|].
  destruct (Qeq_bool (np.sum p) 1) eqn:Hsum; [|discriminate].
  apply Qeq_bool_iff in Hsum. simpl in E.
  destruct (random_sample g) as [u g1]. injection E as <- <-.
  split; [exact Ha|]. split; [exact Hlen|]. split; [exact Hsum|].
  split; [reflexivity|]. simpl. intros Hu.
  assert (p <> []) as Hp by (intros ->; simpl in Hlen; lia).
  assert (np.cumsum p <> []) as Hc.
  { intros Hnil. apply (f_equal length) in Hnil.
    unfold np.cumsum in Hnil. rewrite cumsum_from_length in Hnil.
    destruct p; [congruence | discriminate]. }
  set (L := List.last (np.cumsum p) 0).
  assert (L == 1) as HL.
  { unfold L, np.cumsum. rewrite (cumsum_from_last 0 0 p Hp). lra. }
  rewrite <- Hlen, <- (cumsum_from_length 0 p).
  fold (np.cumsum p).
  rewrite <- (length_fmap (fun c => c / L) (np.cumsum p)).
  apply (searchsorted_right_lt _ u (L / L)).
  - rewrite fmap_last, (last_default _ 0 Hc). reflexivity.
  - rewrite HL. exact Hu.
Qed.

(** ** The table *)

Section TableFacts.
Context {K : Type} `{Countable K}.
Implicit Types (d tbl : defaultdict K) (s : K).

Lemma dd_read_unfold d s :
  dd_read d s = default (np.zeros (factory_nA d)) (data d !! s).
Proof. unfold dd_read, dd_getitem. destruct (data d !! s); reflexivity. Qed.

Lemma dd_read_hit d s row : data d !! s = Some row -> dd_read d s = row.
Proof. unfold dd_read, dd_getitem. intros ->. reflexivity. Qed.

Lemma dd_read_miss d s :
  data d !! s = None -> dd_read d s = np.zeros (factory_nA d).
Proof. unfold dd_read, dd_getitem. intros ->. reflexivity. Qed.

Lemma dd_getitem_factory d s : factory_nA (snd (dd_getitem d s)) = factory_nA d.
Proof. unfold dd_getitem. destruct (data d !! s); reflexivity. Qed.

Lemma dd_getitem_data_eq d s :
  data (snd (dd_getitem d s)) !! s = Some (dd_read d s).
Proof.
  unfold dd_read, dd_getitem. destruct (data d !! s) eqn:E; simpl.
  - exact E.
  - apply lookup_insert_eq.
Qed.

Lemma dd_getitem_data_ne d s s' :
  s <> s' -> data (snd (dd_getitem d s)) !! s' = data d !! s'.
Proof.
  intros Hne. unfold dd_getitem. destruct (data d !! s) eqn:E; simpl.
  - reflexivity.
  - apply lookup_insert_ne. exact Hne.
Qed.

Lemma dd_getitem_hit d s row : data d !! s = Some row -> dd_getitem d s = (row, d).
Proof. unfold dd_getitem. intros ->. reflexivity. Qed.

(** A lookup never changes what any lookup yields. *)
Lemma dd_getitem_read d s s' :
  dd_read (snd (dd_getitem d s)) s' = dd_read d s'.
Proof.
  destruct (decide (s = s')) as [<-|Hne].
  - rewrite (dd_read_hit _ _ _ (dd_getitem_data_eq d s)). reflexivity.
  - rewrite !dd_read_unfold.
    rewrite (dd_getitem_data_ne d s s' Hne), (dd_getitem_factory d s).
    reflexivity.
Qed.

Lemma dd_getitem_dom d s :
  dom (data (snd (dd_getitem d s))) = {[ s ]} ∪ dom (data d).
Proof.
  unfold dd_getitem. destruct (data d !! s) eqn:E; simpl.
  - symmetry. apply subseteq_union_1_L, singleton_subseteq_l, elem_of_dom.
    eauto.
  - apply dom_insert_L.
Qed.

Lemma dd_getitem_pair d s row d' :
  dd_getitem d s = (row, d') ->
  row = dd_read d s
  /\ (forall s', dd_read d' s' = dd_read d s')
  /\ factory_nA d' = factory_nA d
  /\ dom (data d') = {[ s ]} ∪ dom (data d).
Proof.
  intros E.
  assert (d' = snd (dd_getitem d s)) as -> by (rewrite E; reflexivity).
  split; [unfold dd_read; rewrite E; reflexivity|].
  split; [intros s'; apply dd_getitem_read|].
  split; [apply dd_getitem_factory | apply dd_getitem_dom].
Qed.

Lemma dd_store_read_eq d s row : dd_read (dd_store d s row) s = row.
Proof. apply dd_read_hit. simpl. apply lookup_insert_eq. Qed.

Lemma dd_store_read_ne d s s' row :
  s <> s' -> dd_read (dd_store d s row) s' = dd_read d s'.
Proof.
  intros Hne. rewrite !dd_read_unfold. simpl.
  rewrite lookup_insert_ne by exact Hne. reflexivity.
Qed.

Lemma dd_store_dom d s row :
  dom (data (dd_store d s row)) = {[ s ]} ∪ dom (data d).
Proof. simpl. apply dom_insert_L. Qed.

(** What [policy_fn] returns, whenever it returns. *)
Lemma policy_fn_Ret tbl epsilon nA s p tbl' :
  policy_fn tbl epsilon nA s = Ret (p, tbl') ->
  exists k c,
    tbl' = snd (dd_getitem tbl s)
    /\ nA <> 0%nat
    /\ np.argmax (dd_read tbl s) = Ret k
    /\ replicate nA (1 * (epsilon / inject_Z (Z.of_nat nA))) !! k = Some c
    /\ p = <[k := c + (1 - epsilon)]>
             (replicate nA (1 * (epsilon / inject_Z (Z.of_nat nA)))).
Proof.
  unfold policy_fn, np.ones. intros E.
  destruct (Nat.eqb_spec nA 0) as [|Hn]; [discriminate|].
  rewrite fmap_replicate in E.
  destruct (dd_getitem tbl s) as [row t1] eqn:Eg.
  assert (row = dd_read tbl s) as -> by (unfold dd_read; rewrite Eg; reflexivity).
  bind_inv E as k Hk.
  bind_inv E as c Hc. apply getitem_Ret in Hc.
  bind_inv E as p0 Hp. apply setitem_Ret in Hp as [_ ->].
  injection E as <- <-. exists k, c. auto.
Qed.

Lemma policy_fn_length tbl epsilon nA s p tbl' :
  policy_fn tbl epsilon nA s = Ret (p, tbl') -> length p = nA.
Proof.
  intros E. apply policy_fn_Ret in E as (k & c & _ & _ & _ & _ & ->).
  rewrite length_insert. apply length_replicate.
Qed.

(** [policy_fn] returns on a row of the right length. *)
Lemma policy_fn_total tbl epsilon nA s :
  nA <> 0%nat -> length (dd_read tbl s) = nA ->
  exists p, policy_fn tbl epsilon nA s = Ret (p, snd (dd_getitem tbl s)).
Proof.
  intros Hn Hlen. unfold policy_fn, np.ones.
  destruct (Nat.eqb_spec nA 0) as [|_]; [contradiction|].
  rewrite fmap_replicate.
  destruct (dd_getitem tbl s) as [row t1] eqn:Eg.
  assert (row = dd_read tbl s) as -> by (unfold dd_read; rewrite Eg; reflexivity).
  destruct (argmax_total (dd_read tbl s)) as [k Hk].
  { intros E. rewrite E in Hlen. simpl in Hlen. lia. }
  rewrite Hk, bind_Ret.
  pose proof (first_max_lt _ _ (argmax_spec _ _ Hk)) as Hlt. rewrite Hlen in Hlt.
  unfold np.getitem. rewrite (lookup_replicate_2 _ _ _ Hlt), bind_Ret.
  unfold np.setitem. rewrite length_replicate.
  destruct (Nat.ltb_spec k nA) as [_|]; [|lia].
  rewrite bind_Ret. simpl. eauto.
Qed.

End TableFacts.

(** ** The policy generator *)

Section PolicyFacts.
Context {K : Type} `{Countable K}.
Implicit Types (tbl : defaultdict K) (s : K).

Lemma policy_fn_entries tbl epsilon nA s p tbl' k :
  policy_fn tbl epsilon nA s = Ret (p, tbl') ->
  np.argmax (dd_read tbl s) = Ret k ->
  forall a v, p !! a = Some v ->
    v == epsilon / inject_Z (Z.of_nat nA)
         + (if decide (a = k) then 1 - epsilon else 0).
Proof.
  intros E Hk a v Ha.
  apply policy_fn_Ret in E as (k' & c & _ & _ & Hk' & Hc & ->).
  assert (k' = k) as -> by congruence.
  apply lookup_replicate in Hc as [-> Hlt].
  destruct (decide (a = k)) as [->|Hne].
  - rewrite list_lookup_insert_eq in Ha by (rewrite length_replicate; exact Hlt).
    injection Ha as <-. lra.
  - rewrite list_lookup_insert_ne in Ha by congruence.
    apply lookup_replicate in Ha as [-> _]. lra.
Qed.

(** C3: on a table whose row for the state has [nA] cells, with
    [0 < nA] and [0 <= epsilon <= 1], the policy function returns an
    [nA]-long distribution: [epsilon / nA] on every action plus
    [1 - epsilon] on the lowest index at which the row is maximal;
    its entries are non-negative and sum to 1; for [epsilon = 0] it
    is the point mass on that index and for [epsilon = 1] it is
    uniform. *)
Theorem policy_fn_epsilon_greedy tbl (epsilon : Q) (nA : nat) s :
  (0 < nA)%nat -> 0 <= epsilon <= 1 -> length (dd_read tbl s) = nA ->
  exists p tbl' k,
    make_epsilon_greedy_policy epsilon nA tbl s = Ret (p, tbl')
    /\ first_max (dd_read tbl s) k
    /\ length p = nA
    /\ (forall a v, p !! a = Some v ->
          v == epsilon / inject_Z (Z.of_nat nA)
               + (if decide (a = k) then 1 - epsilon else 0))
    /\ (forall a v, p !! a = Some v -> 0 <= v)
    /\ np.sum p == 1
    /\ (epsilon == 0 ->
        forall a v, p !! a = Some v -> v == (if decide (a = k) then 1 else 0))
    /\ (epsilon == 1 ->
        forall a v, p !! a = Some v -> v == 1 / inject_Z (Z.of_nat nA)).
Proof.
  intros Hn [He0 He1] Hlen. unfold make_epsilon_greedy_policy.
  destruct (policy_fn_total tbl epsilon nA s) as [p Hp]; [lia | exact Hlen |].
  pose proof (policy_fn_Ret _ _ _ _ _ _ Hp) as (k & c & _ & _ & Hk & Hc & Hpeq).
  pose proof (policy_fn_entries _ _ _ _ _ _ _ Hp Hk) as Hent.
  pose proof (inject_nat_pos nA Hn) as Hpos.
  set (n := inject_Z (Z.of_nat nA)) in *.
  assert (0 <= epsilon / n) as Hdiv.
  { unfold Qdiv. apply Qmult_le_0_compat; [exact He0|].
    apply Qlt_le_weak, Qinv_lt_0_compat, Hpos. }
  exists p, (snd (dd_getitem tbl s)), k.
  split; [exact Hp|]. split; [apply argmax_spec, Hk|].
  split; [eapply policy_fn_length, Hp|].
  split; [exact Hent|].
  split; [|split; [|split]].
  - intros a v Ha. rewrite (Hent a v Ha). destruct (decide (a = k)); lra.
  - rewrite Hpeq, (sum_insert _ _ _ _ Hc), sum_replicate.
    apply lookup_replicate in Hc as [-> _]. fold n. clearbody n. field. lra.
  - intros Hz a v Ha. rewrite (Hent a v Ha). clearbody n.
    destruct (decide (a = k)); rewrite Hz; field; lra.
  - intros Hz a v Ha. rewrite (Hent a v Ha). clearbody n.
    destruct (decide (a = k)); rewrite Hz; field; lra.
Qed.

(** C7, as the code has it: a call of the policy function leaves what
    every lookup of the table yields unchanged, keeps the default
    factory and every stored row, and changes the table at most by
    storing the zero row under the queried state when that state was
    absent. *)
Theorem policy_fn_preserves_lookups tbl (epsilon : Q) (nA : nat) s p tbl' :
  make_epsilon_greedy_policy epsilon nA tbl s = Ret (p, tbl') ->
  (forall s', dd_read tbl' s' = dd_read tbl s')
  /\ factory_nA tbl' = factory_nA tbl
  /\ (forall s', s' <> s -> data tbl' !! s' = data tbl !! s')
  /\ data tbl' !! s = Some (dd_read tbl s)
  /\ (is_Some (data tbl !! s) -> tbl' = tbl)
  /\ (data tbl !! s = None ->
      data tbl' = <[s := np.zeros (factory_nA tbl)]> (data tbl)).
Proof.
  unfold make_epsilon_greedy_policy. intros E.
  apply policy_fn_Ret in E as (k & c & -> & _).
  split; [intros s'; apply dd_getitem_read|].
  split; [apply dd_getitem_factory|].
  split; [intros s' Hne; apply dd_getitem_data_ne; congruence|].
  split; [apply dd_getitem_data_eq|].
  split.
  - intros [row Hrow]. rewrite (dd_getitem_hit _ _ _ Hrow). reflexivity.
  - intros Hnone. unfold dd_getitem. rewrite Hnone. reflexivity.
Qed.

End PolicyFacts.

(** ** The learning loop: one step *)

Section StepFacts.
Context {K : Type} `{Countable K}.
Variable G : Type.
Variable random_sample : G -> Q * G.
Variable env : Env K.
Variables (discount_factor alpha epsilon : Q).

Local Abbreviation world := (world G env).
Local Abbreviation step_body :=
  (step_body G random_sample env discount_factor alpha epsilon).
Local Abbreviation policy := (policy env epsilon).
Local Abbreviation td_target := (td_target discount_factor alpha).
Local Abbreviation step_effect :=
  (step_effect G random_sample env discount_factor alpha epsilon).

Implicit Types (tbl : defaultdict K) (s state next_state : K) (w : world).

Lemma td_update_Ret state action reward next_state b tbl tbl' :
  td_update discount_factor alpha state action reward next_state b tbl = Ret tbl' ->
  exists old qn,
    dd_read tbl state !! action = Some old
    /\ dd_read tbl next_state !! b = Some qn
    /\ dd_read tbl' state = <[action := td_target old reward qn]> (dd_read tbl state)
    /\ (forall s, s <> state -> dd_read tbl' s = dd_read tbl s)
    /\ factory_nA tbl' = factory_nA tbl
    /\ dom (data tbl') = {[ state ]} ∪ ({[ next_state ]} ∪ dom (data tbl)).
Proof.
  unfold td_update. intros E.
  destruct (dd_getitem tbl state) as [row t1] eqn:E1.
  assert (row = dd_read tbl state) as ->
    by (unfold dd_read; rewrite E1; reflexivity).
  assert (t1 = snd (dd_getitem tbl state)) as -> by (rewrite E1; reflexivity).
  set (t1 := snd (dd_getitem tbl state)) in *.
  bind_inv E as old Hold. apply getitem_Ret in Hold.
  destruct (dd_getitem t1 next_state) as [nrow t2] eqn:E2.
  assert (nrow = dd_read tbl next_state) as ->.
  { unfold t1 in E2. rewrite <- (dd_getitem_read tbl state next_state).
    unfold dd_read at 1. rewrite E2. reflexivity. }
  assert (t2 = snd (dd_getitem t1 next_state)) as -> by (rewrite E2; reflexivity).
  set (t2 := snd (dd_getitem t1 next_state)) in *.
  bind_inv E as qn Hqn. apply getitem_Ret in Hqn.
  destruct (dd_getitem t2 state) as [row' t3] eqn:E3.
  assert (t3 = snd (dd_getitem t2 state)) as -> by (rewrite E3; reflexivity).
  set (t3 := snd (dd_getitem t2 state)) in *.
  assert (row' = dd_read tbl state) as ->.
  { unfold t2, t1 in E3.
    rewrite <- (dd_getitem_read tbl state state).
    rewrite <- (dd_getitem_read _ next_state state).
    unfold dd_read at 1. rewrite E3. reflexivity. }
  bind_inv E as cur Hcur. apply getitem_Ret in Hcur.
  assert (cur = old) as -> by congruence.
  bind_inv E as row1 Hset. apply setitem_Ret in Hset as [_ ->].
  injection E as <-. exists old, qn.
  split; [exact Hold|]. split; [exact Hqn|].
  split; [apply dd_store_read_eq|].
  split.
  { intros s Hne. rewrite dd_store_read_ne by congruence.
    unfold t3, t2, t1. rewrite !dd_getitem_read. reflexivity. }
  split.
  { simpl. unfold t3, t2, t1. rewrite !dd_getitem_factory. reflexivity. }
  rewrite dd_store_dom. unfold t3, t2, t1. rewrite !dd_getitem_dom.
  union_eq.
Qed.

(** The update returns on rows that have the two cells it reads. *)
Lemma td_update_total state action reward next_state b tbl old qn :
  dd_read tbl state !! action = Some old ->
  dd_read tbl next_state !! b = Some qn ->
  exists tbl',
    td_update discount_factor alpha state action reward next_state b tbl = Ret tbl'.
Proof.
  intros Hold Hqn. unfold td_update.
  destruct (dd_getitem tbl state) as [row t1] eqn:E1.
  apply dd_getitem_pair in E1 as (-> & R1 & _).
  rewrite (proj2 (getitem_Ret _ _ _) Hold), bind_Ret.
  destruct (dd_getitem t1 next_state) as [nrow t2] eqn:E2.
  apply dd_getitem_pair in E2 as (-> & R2 & _).
  rewrite R1, (proj2 (getitem_Ret _ _ _) Hqn), bind_Ret.
  destruct (dd_getitem t2 state) as [row' t3] eqn:E3.
  apply dd_getitem_pair in E3 as (-> & R3 & _).
  rewrite R2, R1, (proj2 (getitem_Ret _ _ _) Hold), bind_Ret.
  unfold np.setitem.
  apply lookup_lt_Some in Hold.
  destruct (Nat.ltb_spec action (length (dd_read tbl state))); [|lia].
  rewrite bind_Ret. eauto.
Qed.

Lemma step_body_Ret i_episode i state w done next_state w' :
  step_body i_episode i state w = Ret (done, next_state, w') ->
  exists action reward,
    step_effect i_episode i state w done next_state w' action reward.
Proof.
  unfold step_body. intros E.
  bind_inv E as [probs t1] Hpol.
  pose proof (policy_fn_Ret _ _ _ _ _ _ Hpol) as (_ & _ & Ht1 & _).
  bind_inv E as [action g] Hch.
  bind_inv E as [[[ns reward] dn] e] Henv.
  destruct (dd_getitem t1 ns) as [nrow t2] eqn:E2.
  apply dd_getitem_pair in E2 as (-> & R2 & F2 & D2).
  bind_inv E as b Hb.
  bind_inv E as r0 Hr0. apply getitem_Ret in Hr0.
  bind_inv E as rewards Hrew. apply setitem_Ret in Hrew as [_ ->].
  bind_inv E as lengths Hlen. apply setitem_Ret in Hlen as [Hlen ->].
  bind_inv E as tbl' Htd.
  injection E as <- <- <-.
  apply td_update_Ret in Htd
    as (old & qn & Hold & Hqn & Hrow & Hframe & Hfac & Hdom).
  rewrite R2 in *. rewrite Ht1 in *. rewrite !dd_getitem_read in *.
  exists action, reward. split; simpl.
  - exists probs, (snd (dd_getitem (w_Q _ _ w) state)). auto.
  - exact Henv.
  - reflexivity.
  - exists r0. auto.
  - auto.
  - exists old, qn, b. split; [exact Hold|].
    split; [apply argmax_spec, Hb|]. auto.
  - intros s Hs. rewrite (Hframe s Hs), R2, !dd_getitem_read. reflexivity.
  - rewrite Hfac, F2, !dd_getitem_factory. reflexivity.
  - rewrite Hdom, D2, !dd_getitem_dom. union_eq.
Qed.

Lemma table_wf_read n tbl s : table_wf n tbl -> length (dd_read tbl s) = n.
Proof.
  intros [Hf Hrows]. rewrite dd_read_unfold.
  destruct (data tbl !! s) as [row|] eqn:E; simpl.
  - eapply Hrows, E.
  - rewrite Hf. apply length_replicate.
Qed.

Lemma step_body_update i_episode i state w done next_state w' :
  step_body i_episode i state w = Ret (done, next_state, w') ->
  exists action reward old max_next b,
    step env (w_env _ _ w) action = Ret (next_state, reward, done, w_env _ _ w')
    /\ dd_read (w_Q _ _ w) state !! action = Some old
    /\ dd_read (w_Q _ _ w) next_state !! b = Some max_next
    /\ (forall j y, dd_read (w_Q _ _ w) next_state !! j = Some y -> y <= max_next)
    /\ (table_wf (nA env) (w_Q _ _ w) ->
        length (dd_read (w_Q _ _ w) next_state) = nA env)
    /\ dd_read (w_Q _ _ w') state !! action
       = Some (old + alpha * (reward + discount_factor * max_next - old)).
Proof.
  intros E. apply step_body_Ret in E as (action & reward & E).
  destruct E as [_ Senv _ _ _ Supd _ _ _].
  destruct Supd
    as (old & m & b & Hold & (m' & Hm' & Hmax & _) & Hb & Hrow).
  exists action, reward, old, m, b.
  split; [exact Senv|].
  split; [exact Hold|]. split; [exact Hb|].
  split; [intros j y Hy; assert (m' = m) as <- by congruence; eauto|].
  split; [intros Hwf; apply table_wf_read, Hwf|].
  rewrite Hrow. apply list_lookup_insert_eq.
  eapply lookup_lt_Some, Hold.
Qed.

End StepFacts.

(** Opens a returning iteration [Hb : step_body ... = Ret ...] into
    the fields of its [step_effect]. *)
Ltac step_inv Hb :=
  let action := fresh "action" in
  let reward := fresh "reward" in
  apply step_body_Ret in Hb
    as (action & reward & [Spol Senv Strace Srew Slen Supd Sframe Sfac Sdom]).

(** ** The learning loop: the points of a run *)

Section RunPoints.
Context {K : Type} `{Countable K}.
Variable G : Type.
Variable random_sample : G -> Q * G.
Variable env : Env K.
Variables (discount_factor alpha epsilon : Q).

Local Abbreviation world := (world G env).
Local Abbreviation step_body :=
  (step_body G random_sample env discount_factor alpha epsilon).
Local Abbreviation steps :=
  (steps G random_sample env discount_factor alpha epsilon).
Local Abbreviation episode :=
  (episode G random_sample env discount_factor alpha epsilon).
Local Abbreviation for_episodes :=
  (for_episodes G random_sample env discount_factor alpha epsilon).
Local Abbreviation q_learning_world :=
  (q_learning_world G random_sample env discount_factor alpha epsilon).

Section Reach.
Variables (num_episodes : nat) (e0 : env_state env) (g0 : G).

Local Abbreviation reachable :=
  (reachable G random_sample env discount_factor alpha epsilon
     num_episodes e0 g0).
Local Abbreviation resume :=
  (resume G random_sample env discount_factor alpha epsilon num_episodes).

Lemma steps_reachable fuel i_episode i state w w' :
  reachable (Inside i_episode i state) w ->
  steps fuel i_episode i state w = Ret w' ->
  reachable (Between (S i_episode)) w'.
Proof.
  revert i state w. induction fuel as [|fuel IH]; intros i state w Hr E.
  - discriminate.
  - simpl in E. bind_inv E as [[done ns] w1] Hb.
    destruct done.
    + injection E as <-. eapply reach_done; eassumption.
    + eapply IH; [|exact E]. eapply reach_step; eassumption.
Qed.

Lemma episodes_reachable fuel k i_episode w w' :
  reachable (Between i_episode) w ->
  (i_episode + k <= num_episodes)%nat ->
  for_episodes fuel (seq i_episode k) w = Ret w' ->
  reachable (Between (i_episode + k)) w'.
Proof.
  revert i_episode w.
  induction k as [|k IH]; intros i_episode w Hr Hle E; simpl in E.
  - injection E as <-. rewrite Nat.add_0_r. exact Hr.
  - bind_inv E as w1 Hep. unfold episode in Hep.
    bind_inv Hep as [state e] Hreset.
    replace (i_episode + S k)%nat with (S i_episode + k)%nat by lia.
    apply (IH (S i_episode) w1); [|lia|exact E].
    eapply steps_reachable; [|exact Hep].
    apply reach_reset; [exact Hr | lia | exact Hreset].
Qed.

(** The world a run returns is the one at the exit of the episode loop. *)
Lemma q_learning_reachable fuel w :
  q_learning_world fuel num_episodes e0 g0 = Ret w ->
  reachable (Between num_episodes) w.
Proof.
  intros E.
  apply (episodes_reachable fuel num_episodes 0
           (initial_world G env num_episodes e0 g0) w).
  - apply reach_start.
  - lia.
  - exact E.
Qed.

(** With enough fuel the run gets to every reachable point and
    goes on from there. *)
Lemma reachable_resume p w :
  reachable p w ->
  exists fuel0, forall fuel, (fuel0 <= fuel)%nat ->
    q_learning_world fuel num_episodes e0 g0 = resume fuel p w.
Proof.
  induction 1 as [ | i_episode w state e Hr [f0 IH] Hlt Hreset
                   | i_episode i state w ns w' Hr [f0 IH] Hb
                   | i_episode i state w ns w' Hr [f0 IH] Hb ].
  - exists 0%nat. intros fuel _. simpl.
    rewrite Nat.sub_0_r. reflexivity.
  - exists f0. intros fuel Hf. rewrite (IH fuel Hf). simpl.
    replace (num_episodes - i_episode)%nat
      with (S (num_episodes - S i_episode)) by lia.
    simpl. unfold episode. rewrite Hreset, bind_Ret.
    rewrite Nat.sub_0_r. reflexivity.
  - exists (Nat.max f0 (S i)). intros fuel Hf.
    rewrite (IH fuel) by lia. simpl.
    replace (fuel - i)%nat with (S (fuel - S i)) by lia.
    simpl. rewrite Hb, bind_Ret. reflexivity.
  - exists (Nat.max f0 (S i)). intros fuel Hf.
    rewrite (IH fuel) by lia. simpl.
    replace (fuel - i)%nat with (S (fuel - S i)) by lia.
    simpl. rewrite Hb, bind_Ret. reflexivity.
Qed.

End Reach.

End RunPoints.

(** ** Invariants of a run *)

Section RunInvariants.
Context {K : Type} `{Countable K}.
Variable G : Type.
Variable random_sample : G -> Q * G.
Variable env : Env K.
Variables (discount_factor alpha epsilon : Q).
Variables (num_episodes : nat) (e0 : env_state env) (g0 : G).

Local Abbreviation world := (world G env).
Local Abbreviation reachable :=
  (reachable G random_sample env discount_factor alpha epsilon num_episodes e0 g0).

Implicit Types (trace : list (event K)) (ev : event K) (s : K).

Lemma visited_snoc trace ev s :
  visited (trace ++ [ev]) s <-> visited trace s \/ s = event_state ev.
Proof.
  unfold visited. rewrite fmap_app, elem_of_app. simpl.
  rewrite list_elem_of_singleton. reflexivity.
Qed.

Lemma trace_rewards_snoc_step trace a s r d :
  trace_rewards (trace ++ [EvStep a s r d]) = trace_rewards trace ++ [r].
Proof. unfold trace_rewards. rewrite omap_app. reflexivity. Qed.

Lemma trace_rewards_snoc_reset trace s :
  trace_rewards (trace ++ [EvReset s]) = trace_rewards trace.
Proof. unfold trace_rewards. rewrite omap_app. simpl. apply app_nil_r. Qed.

(** The table holds rows only for states the environment returned,
    and its default rows have [nA] cells. *)
Lemma reachable_table p w :
  reachable p w ->
  factory_nA (w_Q _ _ w) = nA env
  /\ (forall s, s ∈ dom (data (w_Q _ _ w)) -> visited (w_trace _ _ w) s)
  /\ match p with
     | Between _ => True
     | Inside _ _ state => visited (w_trace _ _ w) state
     end.
Proof.
  induction 1 as [ | i_episode w state e Hr (IHf & IHd & _) Hlt Hreset
                   | i_episode i state w ns w' Hr (IHf & IHd & IHs) Hb
                   | i_episode i state w ns w' Hr (IHf & IHd & IHs) Hb ].
  - simpl. split; [reflexivity|]. split; [|exact I].
    intros s Hs. rewrite dom_empty_L in Hs. apply not_elem_of_empty in Hs.
    contradiction.
  - simpl. split; [exact IHf|]. split.
    + intros s Hs. apply visited_snoc. left. apply IHd, Hs.
    + apply visited_snoc. right. reflexivity.
  - step_inv Hb.
    rewrite Sfac, Sdom, Strace.
    split; [exact IHf|]. split.
    + intros s Hs. apply visited_snoc. simpl.
      rewrite !elem_of_union, !elem_of_singleton in Hs.
      destruct Hs as [->|[->|Hs]]; auto.
    + apply visited_snoc. right. reflexivity.
  - step_inv Hb.
    rewrite Sfac, Sdom, Strace.
    split; [exact IHf|]. split; [|exact I].
    intros s Hs. apply visited_snoc. simpl.
    rewrite !elem_of_union, !elem_of_singleton in Hs.
    destruct Hs as [->|[->|Hs]]; auto.
Qed.

(** The two statistics arrays keep their length; the entries of
    [episode_lengths] are non-negative, and so are those of
    [episode_rewards] as long as no observed reward is negative. *)
Lemma reachable_stats p w :
  reachable p w ->
  length (episode_lengths (w_stats _ _ w)) = num_episodes
  /\ length (episode_rewards (w_stats _ _ w)) = num_episodes
  /\ (forall j v, episode_lengths (w_stats _ _ w) !! j = Some v -> 0 <= v)
  /\ ((forall r, r ∈ trace_rewards (w_trace _ _ w) -> 0 <= r) ->
      forall j v, episode_rewards (w_stats _ _ w) !! j = Some v -> 0 <= v).
Proof.
  assert (Hstep : forall i_episode i state w done ns w',
    step_body G random_sample env discount_factor alpha epsilon
      i_episode i state w = Ret (done, ns, w') ->
    (length (episode_lengths (w_stats _ _ w)) = num_episodes
     /\ length (episode_rewards (w_stats _ _ w)) = num_episodes
     /\ (forall j v, episode_lengths (w_stats _ _ w) !! j = Some v -> 0 <= v)
     /\ ((forall r, r ∈ trace_rewards (w_trace _ _ w) -> 0 <= r) ->
         forall j v, episode_rewards (w_stats _ _ w) !! j = Some v -> 0 <= v)) ->
    (length (episode_lengths (w_stats _ _ w')) = num_episodes
     /\ length (episode_rewards (w_stats _ _ w')) = num_episodes
     /\ (forall j v, episode_lengths (w_stats _ _ w') !! j = Some v -> 0 <= v)
     /\ ((forall r, r ∈ trace_rewards (w_trace _ _ w') -> 0 <= r) ->
         forall j v, episode_rewards (w_stats _ _ w') !! j = Some v -> 0 <= v))).
  { intros i_episode i state w0 done ns w' Hb (L1 & L2 & N1 & N2).
    step_inv Hb.
    destruct Srew as (r0 & Hr0 & ->). destruct Slen as (Hlt & ->).
    rewrite Strace.
    rewrite !length_insert. split; [exact L1|]. split; [exact L2|]. split.
    - intros j v Hj. destruct (decide (i_episode = j)) as [<-|Hne].
      + rewrite list_lookup_insert_eq in Hj by exact Hlt.
        injection Hj as <-. change 0 with (inject_Z 0).
        rewrite <- Zle_Qle. lia.
      + rewrite list_lookup_insert_ne in Hj by exact Hne. eauto.
    - rewrite trace_rewards_snoc_step. intros Hpos j v Hj.
      assert (forall r, r ∈ trace_rewards (w_trace _ _ w0) -> 0 <= r) as Hpos'.
      { intros r Hr. apply Hpos, elem_of_app. left. exact Hr. }
      assert (0 <= reward) as Hrw.
      { apply Hpos, elem_of_app. right. apply list_elem_of_singleton.
        reflexivity. }
      destruct (decide (i_episode = j)) as [<-|Hne].
      + rewrite list_lookup_insert_eq in Hj
          by (eapply lookup_lt_Some, Hr0).
        injection Hj as <-. pose proof (N2 Hpos' _ _ Hr0). lra.
      + rewrite list_lookup_insert_ne in Hj by exact Hne. eauto. }
  induction 1 as [ | i_episode w state e Hr IH Hlt Hreset
                   | i_episode i state w ns w' Hr IH Hb
                   | i_episode i state w ns w' Hr IH Hb ].
  - simpl. unfold np.zeros. rewrite !length_replicate.
    split; [reflexivity|]. split; [reflexivity|].
    split; [|intros _]; intros j v Hj;
      apply lookup_replicate in Hj as [-> _]; lra.
  - simpl. rewrite trace_rewards_snoc_reset. exact IH.
  - eapply Hstep; eassumption.
  - eapply Hstep; eassumption.
Qed.

(** The entries of the episodes not yet begun are still zero. *)
Lemma reachable_fresh p w :
  reachable p w ->
  forall j, (next_episode p <= j < num_episodes)%nat ->
    episode_lengths (w_stats _ _ w) !! j = Some 0
    /\ episode_rewards (w_stats _ _ w) !! j = Some 0.
Proof.
  induction 1 as [ | i_episode w state e Hr IH Hlt Hreset
                   | i_episode i state w ns w' Hr IH Hb
                   | i_episode i state w ns w' Hr IH Hb ];
    simpl in *; intros j Hj.
  - unfold np.zeros. rewrite !lookup_replicate_2 by lia. auto.
  - apply IH. lia.
  - step_inv Hb.
    destruct Srew as (r0 & Hr0 & ->). destruct Slen as (Hlt & ->).
    rewrite !list_lookup_insert_ne by lia. apply IH. lia.
  - step_inv Hb.
    destruct Srew as (r0 & Hr0 & ->). destruct Slen as (Hlt & ->).
    rewrite !list_lookup_insert_ne by lia. apply IH. lia.
Qed.

End RunInvariants.

(** ** Frame and failure lemmas for the loops *)

Section LoopFacts.
Context {K : Type} `{Countable K}.
Variable G : Type.
Variable random_sample : G -> Q * G.
Variable env : Env K.
Variables (discount_factor alpha epsilon : Q).

Local Abbreviation world := (world G env).
Local Abbreviation step_body :=
  (step_body G random_sample env discount_factor alpha epsilon).
Local Abbreviation steps :=
  (steps G random_sample env discount_factor alpha epsilon).
Local Abbreviation episode :=
  (episode G random_sample env discount_factor alpha epsilon).
Local Abbreviation for_episodes :=
  (for_episodes G random_sample env discount_factor alpha epsilon).
Local Abbreviation q_learning_world :=
  (q_learning_world G random_sample env discount_factor alpha epsilon).

Local Abbreviation same_entry := (same_entry G env).

Lemma same_entry_trans j w1 w2 w3 :
  same_entry j w1 w2 -> same_entry j w2 w3 -> same_entry j w1 w3.
Proof. intros [A1 A2] [B1 B2]. split; congruence. Qed.

Lemma step_body_frame i_episode i state w done next_state w' j :
  step_body i_episode i state w = Ret (done, next_state, w') ->
  j <> i_episode -> same_entry j w w'.
Proof.
  intros Hb Hne. step_inv Hb.
  destruct Srew as (r0 & _ & Hrew). destruct Slen as (_ & Hlen).
  unfold same_entry. rewrite Hrew, Hlen.
  rewrite !list_lookup_insert_ne by congruence. auto.
Qed.

Lemma steps_frame fuel i_episode i state w w' j :
  steps fuel i_episode i state w = Ret w' ->
  j <> i_episode -> same_entry j w w'.
Proof.
  revert i state w. induction fuel as [|fuel IH]; intros i state w E Hne.
  - discriminate.
  - simpl in E. bind_inv E as [[done ns] w1] Hb.
    pose proof (step_body_frame _ _ _ _ _ _ _ j Hb Hne) as F1.
    destruct done.
    + injection E as <-. exact F1.
    + eapply same_entry_trans; [exact F1|]. eapply IH; eassumption.
Qed.

Lemma episode_frame fuel i_episode w w' j :
  episode fuel i_episode w = Ret w' ->
  j <> i_episode -> same_entry j w w'.
Proof.
  unfold episode. intros E Hne.
  bind_inv E as [state e] Hreset.
  apply (steps_frame _ _ _ _ _ _ j) in E; [|exact Hne]. exact E.
Qed.

Lemma for_episodes_frame fuel range w w' j :
  for_episodes fuel range w = Ret w' ->
  j ∉ range -> same_entry j w w'.
Proof.
  revert w. induction range as [|i range IH]; intros w E Hj; simpl in E.
  - injection E as <-. split; reflexivity.
  - bind_inv E as w1 Hep. apply not_elem_of_cons in Hj as [Hne Hj].
    eapply same_entry_trans.
    + eapply episode_frame; eassumption.
    + eapply IH; eassumption.
Qed.

(** With an action count other than 4 the first sampling fails. *)
Lemma first_step_ValueError i_episode i state w :
  nA env <> 0%nat -> nA env <> 4%nat ->
  length (dd_read (w_Q _ _ w) state) = nA env ->
  step_body i_episode i state w = Raise ValueError.
Proof.
  intros Hn0 Hn4 Hlen. unfold step_body, policy.
  unfold make_epsilon_greedy_policy.
  destruct (policy_fn_total (w_Q _ _ w) epsilon (nA env) state Hn0 Hlen)
    as [p Hp].
  rewrite Hp, bind_Ret. apply policy_fn_length in Hp.
  unfold np.choice. simpl. rewrite Hp.
  destruct (Nat.eqb_spec (nA env) 4) as [|_]; [contradiction|]. reflexivity.
Qed.

End LoopFacts.

(** ** Properties of [q_learning] *)

Section Properties.
Context {K : Type} `{Countable K}.
Variable G : Type.
Variable random_sample : G -> Q * G.
Variable env : Env K.
Variables (discount_factor alpha epsilon : Q).

Local Abbreviation world := (world G env).
Local Abbreviation step_body :=
  (step_body G random_sample env discount_factor alpha epsilon).
Local Abbreviation for_episodes :=
  (for_episodes G random_sample env discount_factor alpha epsilon).
Local Abbreviation q_learning_world :=
  (q_learning_world G random_sample env discount_factor alpha epsilon).
Local Abbreviation reachable :=
  (reachable G random_sample env discount_factor alpha epsilon).
Local Abbreviation q_learning := (q_learning G random_sample env).

(** C1, as the code has it: the sample space of line 73 is the
    constant 4, not [env.nA].  On an environment whose action count
    is positive and other than 4, the first sampling of a run of at
    least one episode raises ValueError (numpy rejects a probability
    vector of [nA] entries over 4 outcomes), so no action is sampled
    at all; an iteration returns only when [env.nA] is 4, and then the
    action passed to [step] lies in [0,4) as long as the generator
    draws from [0,1). *)
Theorem sample_space_is_constant_four :
  (forall (fuel num_episodes : nat) (e0 e1 : env_state env) (g0 : G) (state : K),
      nA env <> 0%nat -> nA env <> 4%nat ->
      reset env e0 = Ret (state, e1) ->
      q_learning (S fuel) e0 g0 (S num_episodes) discount_factor alpha epsilon
      = Raise ValueError)
  /\ (forall i_episode i state w done next_state w',
        step_body i_episode i state w = Ret (done, next_state, w') ->
        nA env = 4%nat
        /\ exists action reward,
             step env (w_env _ _ w) action
             = Ret (next_state, reward, done, w_env _ _ w')
             /\ (fst (random_sample (w_rng _ _ w)) < 1 -> (action < 4)%nat)).
Proof.
  split.
  - intros fuel num_episodes e0 e1 g0 state Hn0 Hn4 Hreset.
    unfold q_learning, q_learning_world.
    simpl.
    unfold episode. simpl w_env. rewrite Hreset, bind_Ret.
    simpl steps.
    rewrite first_step_ValueError; [reflexivity | exact Hn0 | exact Hn4 |].
    simpl. rewrite dd_read_miss by apply lookup_empty.
    apply length_replicate.
  - intros i_episode i state w done ns w' Hb. step_inv Hb.
    destruct Spol as (probs & tbl & Hpol & Hch).
    apply policy_fn_length in Hpol.
    apply choice_Ret in Hch as (_ & Hlen & _ & _ & Hrange).
    split; [congruence|]. exists action, reward. auto.
Qed.

(** C5: a lookup of a key that is absent yields the zero row of the
    default factory and never fails; at every point of a run the
    factory length is [env.nA] and the table has no row for a state
    the environment has not returned, so a lookup of such a state
    yields [nA] zeros; the same holds for the world a run returns. *)
Theorem lazy_zero_default :
  (forall (d : defaultdict K) (s : K),
      data d !! s = None ->
      dd_getitem d s
      = (np.zeros (factory_nA d),
         mkdd (factory_nA d) (<[s := np.zeros (factory_nA d)]> (data d)))
      /\ length (np.zeros (factory_nA d)) = factory_nA d)
  /\ (forall num_episodes e0 g0 p w,
        reachable num_episodes e0 g0 p w ->
        factory_nA (w_Q _ _ w) = nA env
        /\ forall s, ~ visited (w_trace _ _ w) s ->
             data (w_Q _ _ w) !! s = None
             /\ dd_read (w_Q _ _ w) s = np.zeros (nA env))
  /\ (forall fuel num_episodes e0 g0 w,
        q_learning_world fuel num_episodes e0 g0 = Ret w ->
        forall s, ~ visited (w_trace _ _ w) s ->
          dd_read (w_Q _ _ w) s = np.zeros (nA env)).
Proof.
  assert (Hpoint : forall num_episodes e0 g0 p w,
    reachable num_episodes e0 g0 p w ->
    factory_nA (w_Q _ _ w) = nA env
    /\ forall s, ~ visited (w_trace _ _ w) s ->
         data (w_Q _ _ w) !! s = None
         /\ dd_read (w_Q _ _ w) s = np.zeros (nA env)).
  { intros n e0 g0 p w Hr.
    destruct (reachable_table _ _ _ _ _ _ _ _ _ _ _ Hr) as (Hf & Hd & _).
    split; [exact Hf|]. intros s Hs.
    assert (data (w_Q _ _ w) !! s = None) as Hnone.
    { apply not_elem_of_dom. intros Hin. apply Hs, Hd, Hin. }
    split; [exact Hnone|]. rewrite (dd_read_miss _ _ Hnone), Hf. reflexivity. }
  split; [|split].
  - intros d s Hnone. unfold dd_getitem. rewrite Hnone.
    split; [reflexivity | apply length_replicate].
  - exact Hpoint.
  - intros fuel n e0 g0 w E s Hs.
    apply q_learning_reachable in E. apply (Hpoint _ _ _ _ _ E), Hs.
Qed.

(** C6, as the code has it: after a full run both statistics arrays
    have [num_episodes] entries and every entry of [episode_lengths] is
    non-negative; every entry of [episode_rewards] is non-negative
    when no reward observed during the run is negative. *)
Theorem stats_shape_and_sign fuel num_episodes e0 g0 w :
  q_learning_world fuel num_episodes e0 g0 = Ret w ->
  q_learning fuel e0 g0 num_episodes discount_factor alpha epsilon
  = Ret (w_Q _ _ w, w_stats _ _ w)
  /\ length (episode_lengths (w_stats _ _ w)) = num_episodes
  /\ length (episode_rewards (w_stats _ _ w)) = num_episodes
  /\ (forall j v, episode_lengths (w_stats _ _ w) !! j = Some v -> 0 <= v)
  /\ ((forall r, r ∈ trace_rewards (w_trace _ _ w) -> 0 <= r) ->
      forall j v, episode_rewards (w_stats _ _ w) !! j = Some v -> 0 <= v).
Proof.
  intros E. split.
  - unfold q_learning. rewrite E. reflexivity.
  - apply q_learning_reachable in E.
    apply (reachable_stats _ _ _ _ _ _ _ _ _ _ _ E).
Qed.

(** C9: when a run has reached the head of the episode loop and
    [reset] raises, or has reached the head of the step loop and
    [step] raises on the sampled action, the whole run (given enough
    fuel to get there) ends in that same exception; the outcome
    carries no table and no statistics. *)
Theorem environment_error_propagates num_episodes e0 g0 p w (x : exn) :
  reachable num_episodes e0 g0 p w ->
  match p with
  | Between i_episode =>
      (i_episode < num_episodes)%nat /\ reset env (w_env _ _ w) = Raise x
  | Inside i_episode i state =>
      exists probs tbl action g,
        policy env epsilon (w_Q _ _ w) state = Ret (probs, tbl)
        /\ np.choice G random_sample 4 probs (w_rng _ _ w) = Ret (action, g)
        /\ step env (w_env _ _ w) action = Raise x
  end ->
  exists fuel0, forall fuel, (fuel0 <= fuel)%nat ->
    q_learning fuel e0 g0 num_episodes discount_factor alpha epsilon = Raise x.
Proof.
  intros Hr Hfail.
  destruct (reachable_resume _ _ _ _ _ _ _ _ _ _ _ Hr) as [f0 Hf0].
  destruct p as [i_episode | i_episode i state].
  - destruct Hfail as [Hlt Hreset]. exists f0. intros fuel Hf.
    unfold q_learning. rewrite (Hf0 fuel Hf). simpl.
    replace (num_episodes - i_episode)%nat
      with (S (num_episodes - S i_episode)) by lia.
    simpl. unfold episode. rewrite Hreset. reflexivity.
  - destruct Hfail as (probs & tbl & action & g & Hpol & Hch & Hstep).
    exists (Nat.max f0 (S i)). intros fuel Hf.
    unfold q_learning. rewrite (Hf0 fuel) by lia. simpl.
    replace (fuel - i)%nat with (S (fuel - S i)) by lia.
    simpl. unfold step_body.
    rewrite Hpol, bind_Ret, Hch, bind_Ret, Hstep. reflexivity.
Qed.

(** C10: an iteration of episode [i_episode] leaves the statistics
    of every other episode alone, and so does the run of any range of
    episodes that does not contain the index; hence at every point of
    a run the entries of the episodes not yet begun are zero, and the
    rest of a run from the head of episode [i] leaves the entries of
    the episodes before [i] as they are. *)
Theorem stats_written_only_by_own_episode :
  (forall i_episode i state w done next_state w' j,
      step_body i_episode i state w = Ret (done, next_state, w') ->
      j <> i_episode -> same_entry G env j w w')
  /\ (forall fuel range w w' j,
        for_episodes fuel range w = Ret w' ->
        j ∉ range -> same_entry G env j w w')
  /\ (forall num_episodes e0 g0 p w j,
        reachable num_episodes e0 g0 p w ->
        (next_episode p <= j < num_episodes)%nat ->
        episode_lengths (w_stats _ _ w) !! j = Some 0
        /\ episode_rewards (w_stats _ _ w) !! j = Some 0)
  /\ (forall num_episodes e0 g0 fuel i w w' j,
        reachable num_episodes e0 g0 (Between i) w ->
        resume G random_sample env discount_factor alpha epsilon
          num_episodes fuel (Between i) w = Ret w' ->
        (j < i)%nat -> same_entry G env j w w').
Proof.
  split; [|split; [|split]].
  - intros. eapply step_body_frame; eassumption.
  - intros. eapply for_episodes_frame; eassumption.
  - intros n e0 g0 p w j Hr Hj.
    apply (reachable_fresh _ _ _ _ _ _ _ _ _ _ _ Hr j Hj).
  - intros n e0 g0 fuel i w w' j _ E Hj. simpl in E.
    eapply for_episodes_frame; [exact E|].
    rewrite elem_of_seq. lia.
Qed.

End Properties.

(** ** What the statistics record of each episode *)

Section EpisodeLog.
Context {K : Type} `{Countable K}.
Variable G : Type.
Variable random_sample : G -> Q * G.
Variable env : Env K.
Variables (discount_factor alpha epsilon : Q).

Local Abbreviation world := (world G env).
Local Abbreviation steps :=
  (steps G random_sample env discount_factor alpha epsilon).
Local Abbreviation for_episodes :=
  (for_episodes G random_sample env discount_factor alpha epsilon).
Local Abbreviation q_learning_world :=
  (q_learning_world G random_sample env discount_factor alpha epsilon).
Local Abbreviation reachable :=
  (reachable G random_sample env discount_factor alpha epsilon).

Lemma steps_log fuel i_episode i state w w' :
  steps fuel i_episode i state w = Ret w' ->
  exists evs,
    evs <> []
    /\ Forall is_step evs
    /\ w_trace _ _ w' = w_trace _ _ w ++ evs
    /\ episode_lengths (w_stats _ _ w') !! i_episode
       = Some (inject_Z (Z.of_nat (i + length evs) - 1))
    /\ forall r0, episode_rewards (w_stats _ _ w) !! i_episode = Some r0 ->
         exists v, episode_rewards (w_stats _ _ w') !! i_episode = Some v
                   /\ v == r0 + np.sum (trace_rewards evs).
Proof.
  revert i state w. induction fuel as [|fuel IH]; intros i state w E.
  - discriminate.
  - simpl in E. bind_inv E as [[done ns] w1] Hb. step_inv Hb.
    destruct Srew as (r0 & Hr0 & Hrew). destruct Slen as (Hlt & Hlen).
    assert (episode_rewards (w_stats _ _ w1) !! i_episode = Some (r0 + reward))
      as Hr1.
    { rewrite Hrew. apply list_lookup_insert_eq. eapply lookup_lt_Some, Hr0. }
    destruct done.
    + injection E as <-. exists [EvStep action ns reward true].
      split; [discriminate|]. split; [repeat constructor|].
      split; [exact Strace|]. split.
      * rewrite Hlen, list_lookup_insert_eq by exact Hlt.
        do 2 f_equal. simpl. lia.
      * intros r0' Hr0'. assert (r0' = r0) as -> by congruence.
        exists (r0 + reward). split; [exact Hr1|].
        unfold np.sum. simpl. lra.
    + destruct (IH _ _ _ E) as (evs & Hne & Hall & Htr & Hl & Hr).
      exists (EvStep action ns reward false :: evs).
      split; [discriminate|]. split; [constructor; [exact I | exact Hall]|].
      split; [rewrite Htr, Strace, <- app_assoc; reflexivity|]. split.
      * rewrite Hl. do 2 f_equal. simpl. lia.
      * intros r0' Hr0'. assert (r0' = r0) as -> by congruence.
        destruct (Hr _ Hr1) as (v & Hv & Hveq). exists v.
        split; [exact Hv|]. rewrite Hveq. unfold np.sum. simpl. lra.
Qed.

Lemma for_episodes_log num_episodes e0 g0 fuel k i_episode w w' :
  reachable num_episodes e0 g0 (Between i_episode) w ->
  (i_episode + k <= num_episodes)%nat ->
  for_episodes fuel (seq i_episode k) w = Ret w' ->
  exists eps : list (list (event K)),
    length eps = k
    /\ w_trace _ _ w' = w_trace _ _ w ++ concat eps
    /\ forall j ep, eps !! j = Some ep ->
         episode_record (w_stats _ _ w') (i_episode + j) ep.
Proof.
  revert i_episode w.
  induction k as [|k IH]; intros i_episode w Hr Hle E; simpl in E.
  - injection E as <-. exists []. split; [reflexivity|].
    split; [simpl; rewrite app_nil_r; reflexivity|].
    intros j ep Hj. rewrite lookup_nil in Hj. discriminate.
  - bind_inv E as w1 Hep. unfold episode in Hep.
    bind_inv Hep as [s0 e] Hreset.
    assert (reachable num_episodes e0 g0 (Inside i_episode 0 s0)
              (mkW _ _ (w_Q _ _ w) (w_stats _ _ w) e (w_rng _ _ w)
                   (w_trace _ _ w ++ [EvReset s0]))) as Hr0
      by (apply reach_reset; [exact Hr | lia | exact Hreset]).
    pose proof (steps_reachable _ _ _ _ _ _ _ _ _ _ _ _ _ _ _ Hr0 Hep) as Hr1.
    destruct (steps_log _ _ _ _ _ _ Hep) as (evs & Hne & Hall & Htr & Hl & Hrw).
    simpl in Htr, Hrw.
    destruct (reachable_fresh _ _ _ _ _ _ _ _ _ _ _ Hr i_episode) as [_ Hz];
      [simpl; lia|].
    destruct (Hrw _ Hz) as (v & Hv & Hveq).
    destruct (IH (S i_episode) w1 Hr1 ltac:(lia) E) as (eps & Hlen & Htr' & Hrec).
    assert (same_entry G env i_episode w1 w') as [F1 F2].
    { eapply for_episodes_frame; [exact E|]. rewrite elem_of_seq. lia. }
    exists ((EvReset s0 :: evs) :: eps).
    split; [simpl; rewrite Hlen; reflexivity|].
    split.
    { rewrite Htr', Htr. simpl. rewrite <- !app_assoc. reflexivity. }
    intros [|j] ep Hj; simpl in Hj.
    + injection Hj as <-. rewrite Nat.add_0_r. exists s0, evs.
      split; [reflexivity|]. split; [exact Hne|]. split; [exact Hall|].
      split; [rewrite F1, Hl; reflexivity|].
      exists v. split; [rewrite F2; exact Hv|]. rewrite Hveq. lra.
    + replace (i_episode + S j)%nat with (S i_episode + j)%nat by lia.
      apply Hrec, Hj.
Qed.

(** C4, as the code has it: the history of a full run splits into
    [num_episodes] episodes, each a reset followed by at least one
    step; [episode_rewards[i]] is the sum of the rewards of the steps
    of episode [i], but [episode_lengths[i]] is the counter of its
    last step, one less than the number of steps taken. *)
Theorem stats_record_last_index_and_reward_sum fuel num_episodes e0 g0 w :
  q_learning_world fuel num_episodes e0 g0 = Ret w ->
  exists eps : list (list (event K)),
    length eps = num_episodes
    /\ w_trace _ _ w = concat eps
    /\ forall i ep, eps !! i = Some ep ->
         episode_record (w_stats _ _ w) i ep.
Proof.
  intros E.
  destruct (for_episodes_log num_episodes e0 g0 fuel num_episodes 0 _ w
              (reach_start _ _ _ _ _ _ _ _ _) ltac:(lia) E)
    as (eps & Hlen & Htr & Hrec).
  exists eps. split; [exact Hlen|]. split; [exact Htr|]. exact Hrec.
Qed.

End EpisodeLog.

(** * Further properties of the two functions *)

(** ** The policy function: errors and repeated calls *)

Lemma first_max_unique (l : list Q) (k k' : nat) :
  first_max l k -> first_max l k' -> k = k'.
Proof.
  intros (m & Hk & Hle & Hlt) (m' & Hk' & Hle' & Hlt').
  destruct (Nat.lt_trichotomy k k') as [Hc|[Hc|Hc]]; [|exact Hc|].
  - pose proof (Hlt' _ _ Hc Hk). pose proof (Hle _ _ Hk'). lra.
  - pose proof (Hlt _ _ Hc Hk'). pose proof (Hle' _ _ Hk). lra.
Qed.

Lemma argmax_complete (l : list Q) (k : nat) :
  first_max l k -> np.argmax l = Ret k.
Proof.
  intros Hk. destruct (argmax_total l) as [k' Hk'].
  - intros ->. destruct Hk as (m & Hm & _). rewrite lookup_nil in Hm.
    discriminate.
  - rewrite Hk'. f_equal. eapply first_max_unique; [|exact Hk].
    apply argmax_spec, Hk'.
Qed.

Section PolicyMore.
Context {K : Type} `{Countable K}.
Implicit Types (tbl : defaultdict K) (s : K).

(** The policy function reads the table only through the row of the
    queried state. *)
Lemma policy_fn_unfold tbl epsilon nA s :
  policy_fn tbl epsilon nA s =
  if (nA =? 0)%nat then Raise ZeroDivisionError
  else
    best_action ← np.argmax (dd_read tbl s);
    cur ← np.getitem
            (replicate nA (1 * (epsilon / inject_Z (Z.of_nat nA)))) best_action;
    policy ← np.setitem
               (replicate nA (1 * (epsilon / inject_Z (Z.of_nat nA))))
               best_action (cur + (1 - epsilon));
    Ret (policy, snd (dd_getitem tbl s)).
Proof.
  unfold policy_fn, np.ones. destruct (nA =? 0)%nat; [reflexivity|].
  rewrite fmap_replicate.
  destruct (dd_getitem tbl s) as [row t1] eqn:E.
  apply dd_getitem_pair in E as (-> & _). reflexivity.
Qed.

Lemma dd_getitem_twice tbl s :
  dd_getitem (snd (dd_getitem tbl s)) s = (dd_read tbl s, snd (dd_getitem tbl s)).
Proof. apply dd_getitem_hit, dd_getitem_data_eq. Qed.

(** X1: when the policy function fails and when it returns.  With
    [nA = 0] it raises ZeroDivisionError; on an empty row it raises
    ValueError; otherwise, [k] being the first index of the row's
    maximum, it raises IndexError when [k] is not below [nA] and
    returns an [nA]-long vector when it is. *)
Theorem policy_fn_failure_modes tbl (epsilon : Q) (nA : nat) s :
  (nA = 0%nat -> policy_fn tbl epsilon nA s = Raise ZeroDivisionError)
  /\ (nA <> 0%nat -> dd_read tbl s = [] ->
      policy_fn tbl epsilon nA s = Raise ValueError)
  /\ (forall k, nA <> 0%nat -> first_max (dd_read tbl s) k ->
        ((nA <= k)%nat -> policy_fn tbl epsilon nA s = Raise IndexError)
        /\ ((k < nA)%nat ->
            exists p, policy_fn tbl epsilon nA s = Ret (p, snd (dd_getitem tbl s))
                      /\ length p = nA)).
Proof.
  rewrite policy_fn_unfold. split; [|split].
  - intros ->. reflexivity.
  - intros Hn Hrow. destruct (Nat.eqb_spec nA 0) as [|_]; [contradiction|].
    rewrite Hrow. reflexivity.
  - intros k Hn Hk. destruct (Nat.eqb_spec nA 0) as [|_]; [contradiction|].
    rewrite (argmax_complete _ _ Hk), bind_Ret. unfold np.getitem. split.
    + intros Hge.
      rewrite (proj1 (lookup_replicate_None _ _ _) Hge). reflexivity.
    + intros Hlt. rewrite (lookup_replicate_2 _ _ _ Hlt), bind_Ret.
      unfold np.setitem. rewrite length_replicate.
      destruct (Nat.ltb_spec k nA) as [_|]; [|lia].
      rewrite bind_Ret. eexists. split; [reflexivity|].
      rewrite length_insert. apply length_replicate.
Qed.

(** X2: a call of the policy function does not change what later
    calls return: on the table it leaves behind, every state gets the
    distribution it would have got before, and a second query of the
    same state returns the same distribution and leaves the table as
    the first call left it. *)
Theorem policy_fn_repeatable tbl (epsilon : Q) (nA : nat) s p tbl' :
  policy_fn tbl epsilon nA s = Ret (p, tbl') ->
  policy_fn tbl' epsilon nA s = Ret (p, tbl')
  /\ forall s2 p2 tbl2,
       policy_fn tbl epsilon nA s2 = Ret (p2, tbl2) ->
       exists tbl2', policy_fn tbl' epsilon nA s2 = Ret (p2, tbl2').
Proof.
  intros E.
  assert (tbl' = snd (dd_getitem tbl s)) as ->.
  { apply policy_fn_Ret in E as (_ & _ & -> & _). reflexivity. }
  split.
  - rewrite policy_fn_unfold in *.
    rewrite dd_getitem_read, dd_getitem_twice. exact E.
  - intros s2 p2 tbl2 E2. rewrite policy_fn_unfold in *.
    rewrite dd_getitem_read.
    destruct (nA =? 0)%nat; [discriminate|].
    bind_inv E2 as k Hk. rewrite Hk, bind_Ret.
    bind_inv E2 as c Hc. rewrite Hc, bind_Ret.
    bind_inv E2 as q Hq. rewrite Hq, bind_Ret.
    injection E2 as <- _. eexists. reflexivity.
Qed.

(** The distribution is valid for [np.random.choice] as soon as its
    two kinds of entries are non-negative. *)
Lemma policy_fn_valid tbl epsilon nA s p tbl' :
  policy_fn tbl epsilon nA s = Ret (p, tbl') ->
  0 <= epsilon ->
  0 <= epsilon / inject_Z (Z.of_nat nA) + (1 - epsilon) ->
  (forall x, x ∈ p -> 0 <= x) /\ np.sum p == 1.
Proof.
  intros E He Hg.
  pose proof (policy_fn_Ret _ _ _ _ _ _ E) as (k & c & _ & Hn & Hk & Hc & Hp).
  pose proof (policy_fn_entries _ _ _ _ _ _ _ E Hk) as Hent.
  assert (0 < inject_Z (Z.of_nat nA)) as Hpos by (apply inject_nat_pos; lia).
  split.
  - intros x Hx. apply list_elem_of_lookup in Hx as [a Ha].
    rewrite (Hent a x Ha). destruct (decide (a = k)); [exact Hg|].
    assert (0 <= epsilon / inject_Z (Z.of_nat nA)).
    { unfold Qdiv. apply Qmult_le_0_compat; [exact He|].
      apply Qlt_le_weak, Qinv_lt_0_compat, Hpos. }
    lra.
  - rewrite Hp, (sum_insert _ _ _ _ Hc), sum_replicate.
    apply lookup_replicate in Hc as [-> _].
    generalize dependent (inject_Z (Z.of_nat nA)). intros n _ _ _ Hpos.
    field. lra.
Qed.

End PolicyMore.

Lemma choice_total (G : Type) (random_sample : G -> Q * G)
    (a : nat) (p : list Q) (g : G) :
  a <> 0%nat -> length p = a -> (forall x, x ∈ p -> 0 <= x) -> np.sum p == 1 ->
  exists k, np.choice G random_sample a p g = Ret (k, snd (random_sample g)).
Proof.
  intros Ha Hlen Hpos Hsum. unfold np.choice.
  destruct (Nat.eqb_spec a 0) as [|_]; [contradiction|].
  destruct (Nat.eqb_spec (length p) a) as [_|]; [|contradiction].
  simpl.
  destruct (existsb (fun x => np.Qlt_bool x 0) p) eqn:Ex.
  { apply existsb_exists in Ex as (x & Hx & Hneg).
    apply Qlt_bool_true in Hneg. apply list_elem_of_In, Hpos in Hx. lra. }
  rewrite (proj2 (Qeq_bool_iff _ _) Hsum). simpl.
  destruct (random_sample g) as [u g1]. simpl. eauto.
Qed.

(** ** More invariants of a run *)

Section RunMore.
Context {K : Type} `{Countable K}.
Variable G : Type.
Variable random_sample : G -> Q * G.
Variable env : Env K.
Variables (discount_factor alpha epsilon : Q).
Variables (num_episodes : nat) (e0 : env_state env) (g0 : G).

Local Abbreviation world := (world G env).
Local Abbreviation reachable :=
  (reachable G random_sample env discount_factor alpha epsilon num_episodes e0 g0).
Local Abbreviation q_learning_world :=
  (q_learning_world G random_sample env discount_factor alpha epsilon).

Implicit Types (tbl : defaultdict K) (s : K) (w : world) (p : point K).

Lemma table_wf_of_reads n tbl :
  factory_nA tbl = n -> (forall s, length (dd_read tbl s) = n) -> table_wf n tbl.
Proof.
  intros Hf Hrows. split; [exact Hf|].
  intros s row Hs. rewrite <- (Hrows s), (dd_read_hit _ _ _ Hs). reflexivity.
Qed.

Lemma step_body_table_wf i_episode i state w done ns w' :
  step_body G random_sample env discount_factor alpha epsilon
    i_episode i state w = Ret (done, ns, w') ->
  table_wf (nA env) (w_Q _ _ w) -> table_wf (nA env) (w_Q _ _ w').
Proof.
  intros Hb Hwf. step_inv Hb. apply table_wf_of_reads.
  - rewrite Sfac. apply Hwf.
  - intros s. destruct (decide (s = state)) as [->|Hne].
    + destruct Supd as (old & m & b & _ & _ & _ & ->).
      rewrite length_insert. apply table_wf_read, Hwf.
    + rewrite (Sframe s Hne). apply table_wf_read, Hwf.
Qed.

Lemma reachable_table_wf p w :
  reachable p w -> table_wf (nA env) (w_Q _ _ w).
Proof.
  induction 1 as [ | i_episode w state e Hr IH Hlt Hreset
                   | i_episode i state w ns w' Hr IH Hb
                   | i_episode i state w ns w' Hr IH Hb ].
  - split; [reflexivity|]. intros s row Hs. simpl in Hs.
    rewrite lookup_empty in Hs. discriminate.
  - exact IH.
  - eapply step_body_table_wf; eassumption.
  - eapply step_body_table_wf; eassumption.
Qed.

Lemma reachable_inside_lt p w :
  reachable p w ->
  match p with
  | Between _ => True
  | Inside i_episode _ _ => (i_episode < num_episodes)%nat
  end.
Proof.
  induction 1 as [ | i_episode w state e Hr IH Hlt Hreset
                   | i_episode i state w ns w' Hr IH Hb
                   | i_episode i state w ns w' Hr IH Hb ]; auto.
Qed.

(** X3: at every point of a run, and in the table a run returns,
    every row has exactly [env.nA] cells. *)
Theorem rows_keep_nA_cells :
  (forall p w, reachable p w -> table_wf (nA env) (w_Q _ _ w))
  /\ (forall fuel w,
        q_learning_world fuel num_episodes e0 g0 = Ret w ->
        forall s, length (dd_read (w_Q _ _ w) s) = nA env).
Proof.
  split; [exact reachable_table_wf|].
  intros fuel w E s. apply q_learning_reachable in E.
  apply table_wf_read, (reachable_table_wf _ _ E).
Qed.

(** X4: the keys of the table are the states the environment has
    returned: at every point, a state was returned by [reset] or [step]
    exactly when it has a row or is the current state of the step
    loop; so the table a run returns has a row for exactly the visited
    states (terminal states included). *)
Theorem table_keys_are_visited_states :
  (forall p w, reachable p w ->
     forall s, visited (w_trace _ _ w) s <->
       (s ∈ dom (data (w_Q _ _ w))
        \/ match p with
           | Between _ => False
           | Inside _ _ state => s = state
           end))
  /\ (forall fuel w,
        q_learning_world fuel num_episodes e0 g0 = Ret w ->
        forall s, visited (w_trace _ _ w) s <-> s ∈ dom (data (w_Q _ _ w))).
Proof.
  assert (Hpoint : forall p w, reachable p w ->
     forall s, visited (w_trace _ _ w) s <->
       (s ∈ dom (data (w_Q _ _ w))
        \/ match p with
           | Between _ => False
           | Inside _ _ state => s = state
           end)).
  { induction 1 as [ | i_episode w state e Hr IH Hlt Hreset
                     | i_episode i state w ns w' Hr IH Hb
                     | i_episode i state w ns w' Hr IH Hb ]; intros s.
    - simpl. unfold visited. simpl. rewrite dom_empty_L.
      rewrite elem_of_nil, elem_of_empty. tauto.
    - simpl. rewrite visited_snoc, (IH s). simpl. tauto.
    - step_inv Hb. rewrite Strace, visited_snoc, (IH s), Sdom. simpl.
      rewrite !elem_of_union, !elem_of_singleton. tauto.
    - step_inv Hb. rewrite Strace, visited_snoc, (IH s), Sdom. simpl.
      rewrite !elem_of_union, !elem_of_singleton. tauto. }
  split; [exact Hpoint|].
  intros fuel w E s. apply q_learning_reachable in E.
  rewrite (Hpoint _ _ E s). tauto.
Qed.


(** X8: when the generator only draws samples below 1, every action
    ever passed to [step] is one of 0, 1, 2, 3. *)
Theorem actions_below_four p w :
  (forall g, fst (random_sample g) < 1) ->
  reachable p w ->
  Forall (action_below 4) (w_trace _ _ w).
Proof.
  intros Hu.
  induction 1 as [ | i_episode w state e Hr IH Hlt Hreset
                   | i_episode i state w ns w' Hr IH Hb
                   | i_episode i state w ns w' Hr IH Hb ].
  - constructor.
  - simpl. apply Forall_app. split; [exact IH|]. repeat constructor.
  - step_inv Hb. destruct Spol as (probs & tbl & _ & Hch).
    apply choice_Ret in Hch as (_ & _ & _ & _ & Hlt).
    rewrite Strace. apply Forall_app. split; [exact IH|].
    constructor; [|constructor]. simpl. apply Hlt, Hu.
  - step_inv Hb. destruct Spol as (probs & tbl & _ & Hch).
    apply choice_Ret in Hch as (_ & _ & _ & _ & Hlt).
    rewrite Strace. apply Forall_app. split; [exact IH|].
    constructor; [|constructor]. simpl. apply Hlt, Hu.
Qed.

End RunMore.

(** ** One iteration: what it touches, and when it fails *)

Lemma choice_negative (G : Type) (random_sample : G -> Q * G)
    (a : nat) (p : list Q) (g : G) (x : Q) :
  a <> 0%nat -> length p = a -> x ∈ p -> x < 0 ->
  np.choice G random_sample a p g = Raise ValueError.
Proof.
  intros Ha Hlen Hx Hneg. unfold np.choice.
  destruct (Nat.eqb_spec a 0) as [|_]; [contradiction|].
  destruct (Nat.eqb_spec (length p) a) as [_|]; [|contradiction].
  simpl.
  assert (existsb (fun y => np.Qlt_bool y 0) p = true) as ->.
  { apply existsb_exists. exists x. split; [apply list_elem_of_In, Hx|].
    apply Qlt_bool_true, Hneg. }
  reflexivity.
Qed.

Section StepMore.
Context {K : Type} `{Countable K}.
Variable G : Type.
Variable random_sample : G -> Q * G.
Variable env : Env K.
Variables (discount_factor alpha epsilon : Q).

Local Abbreviation world := (world G env).
Local Abbreviation step_body :=
  (step_body G random_sample env discount_factor alpha epsilon).

Implicit Types (tbl : defaultdict K) (s state : K) (w : world).

(** X5: an iteration changes one cell of the table and nothing else
    of what the table reads as: the cell [Q[state][action]] of the
    action it passed to [step]; every row keeps its length. *)
Theorem iteration_changes_one_cell i_episode i state w done next_state w' :
  step_body i_episode i state w = Ret (done, next_state, w') ->
  exists action reward,
    step env (w_env _ _ w) action = Ret (next_state, reward, done, w_env _ _ w')
    /\ (forall s, length (dd_read (w_Q _ _ w') s)
                  = length (dd_read (w_Q _ _ w) s))
    /\ (forall s a, s <> state \/ a <> action ->
          dd_read (w_Q _ _ w') s !! a = dd_read (w_Q _ _ w) s !! a).
Proof.
  intros Hb. step_inv Hb. exists action, reward.
  destruct Supd as (old & m & b & _ & _ & _ & Hrow).
  split; [exact Senv|]. split.
  - intros s. destruct (decide (s = state)) as [->|Hne].
    + rewrite Hrow. apply length_insert.
    + rewrite (Sframe s Hne). reflexivity.
  - intros s a Hsa. destruct (decide (s = state)) as [->|Hne].
    + rewrite Hrow. apply list_lookup_insert_ne.
      destruct Hsa as [Hs|Ha]; congruence.
    + rewrite (Sframe s Hne). reflexivity.
Qed.

(** On a table of four-cell rows, with [env.nA = 4], an exploration
    rate in [[0, 4/3]] and a sample below 1, the policy and the
    sampling succeed, and the iteration ends as the call of [step]
    does. *)
Lemma step_body_progress i_episode i state w :
  nA env = 4%nat -> 0 <= epsilon <= 4 # 3 ->
  fst (random_sample (w_rng _ _ w)) < 1 ->
  table_wf 4 (w_Q _ _ w) ->
  (i_episode < length (episode_rewards (w_stats _ _ w)))%nat ->
  (i_episode < length (episode_lengths (w_stats _ _ w)))%nat ->
  exists probs tbl action,
    policy env epsilon (w_Q _ _ w) state = Ret (probs, tbl)
    /\ np.choice G random_sample 4 probs (w_rng _ _ w)
       = Ret (action, snd (random_sample (w_rng _ _ w)))
    /\ (action < 4)%nat
    /\ match step env (w_env _ _ w) action with
       | Ret (next_state, reward, done, e) =>
           exists w', step_body i_episode i state w = Ret (done, next_state, w')
       | Raise x => step_body i_episode i state w = Raise x
       | Diverge => step_body i_episode i state w = Diverge
       end.
Proof.
  intros HnA [He0 He1] Hu Hwf Hrl Hll.
  pose proof (table_wf_read _ _ state Hwf) as Hrow.
  destruct (policy_fn_total (w_Q _ _ w) epsilon 4 state ltac:(lia) Hrow)
    as [probs Hpol].
  destruct (policy_fn_valid _ _ _ _ _ _ Hpol He0) as [Hpos Hsum].
  { change (inject_Z (Z.of_nat 4)) with 4. unfold Qdiv.
    change (/ 4) with (1 # 4). lra. }
  pose proof (policy_fn_length _ _ _ _ _ _ Hpol) as Hlen.
  destruct (choice_total G random_sample 4 probs (w_rng _ _ w)
              ltac:(lia) Hlen Hpos Hsum) as [action Hch].
  pose proof (choice_Ret _ _ _ _ _ _ _ Hch) as (_ & _ & _ & _ & Hlt).
  specialize (Hlt Hu).
  exists probs, (snd (dd_getitem (w_Q _ _ w) state)), action.
  unfold policy, make_epsilon_greedy_policy. rewrite HnA.
  split; [exact Hpol|]. split; [exact Hch|]. split; [exact Hlt|].
  unfold step_body.
  unfold policy, make_epsilon_greedy_policy. rewrite HnA, Hpol, bind_Ret.
  rewrite Hch, bind_Ret.
  destruct (step env (w_env _ _ w) action) as [[[[ns reward] done] e]|x|];
    [|reflexivity|reflexivity].
  rewrite bind_Ret.
  destruct (dd_getitem (snd (dd_getitem (w_Q _ _ w) state)) ns)
    as [nrow t2] eqn:E2.
  apply dd_getitem_pair in E2 as (-> & R2 & _).
  rewrite dd_getitem_read.
  pose proof (table_wf_read _ _ ns Hwf) as Hnrow.
  destruct (argmax_total (dd_read (w_Q _ _ w) ns)) as [b Hb].
  { intros E. rewrite E in Hnrow. discriminate. }
  rewrite Hb, bind_Ret.
  pose proof (first_max_lt _ _ (argmax_spec _ _ Hb)) as Hblt.
  destruct (lookup_lt_is_Some_2 _ _ Hrl) as [r0 Hr0].
  rewrite (proj2 (getitem_Ret _ _ _) Hr0), bind_Ret.
  unfold np.setitem.
  destruct (Nat.ltb_spec i_episode (length (episode_rewards (w_stats _ _ w))));
    [|lia].
  rewrite bind_Ret.
  destruct (Nat.ltb_spec i_episode (length (episode_lengths (w_stats _ _ w))));
    [|lia].
  rewrite bind_Ret.
  destruct (lookup_lt_is_Some_2 (dd_read (w_Q _ _ w) state) action) as [old Hold];
    [rewrite Hrow; exact Hlt|].
  destruct (lookup_lt_is_Some_2 (dd_read (w_Q _ _ w) ns) b Hblt) as [qn Hqn].
  destruct (td_update_total discount_factor alpha state action reward ns b t2
              old qn) as [tbl' Htd].
  { rewrite R2, dd_getitem_read. exact Hold. }
  { rewrite R2, dd_getitem_read. exact Hqn. }
  rewrite Htd, bind_Ret. eexists. reflexivity.
Qed.

(** With an exploration rate below 0 or above 4/3 the distribution
    has a negative entry, and the sampling rejects it. *)
Lemma step_body_bad_epsilon i_episode i state w :
  nA env = 4%nat -> (epsilon < 0 \/ 4 # 3 < epsilon) ->
  table_wf 4 (w_Q _ _ w) ->
  step_body i_episode i state w = Raise ValueError.
Proof.
  intros HnA Heps Hwf.
  pose proof (table_wf_read _ _ state Hwf) as Hrow.
  destruct (policy_fn_total (w_Q _ _ w) epsilon 4 state ltac:(lia) Hrow)
    as [probs Hpol].
  pose proof (policy_fn_length _ _ _ _ _ _ Hpol) as Hlen.
  pose proof (policy_fn_Ret _ _ _ _ _ _ Hpol) as (k & c & _ & _ & Hk & _ & _).
  pose proof (policy_fn_entries _ _ _ _ _ _ _ Hpol Hk) as Hent.
  change (inject_Z (Z.of_nat 4)) with 4 in Hent. unfold Qdiv in Hent.
  change (/ 4) with (1 # 4) in Hent.
  pose proof (first_max_lt _ _ (argmax_spec _ _ Hk)) as Hklt.
  rewrite Hrow in Hklt.
  assert (exists x, x ∈ probs /\ x < 0) as (x & Hx & Hneg).
  { destruct Heps as [Hlow|Hhigh].
    - set (a := if decide (k = 0%nat) then 1%nat else 0%nat).
      assert (a <> k) as Hak by (unfold a; destruct (decide (k = 0%nat)); lia).
      assert (a < length probs)%nat as Ha
        by (rewrite Hlen; unfold a; destruct (decide (k = 0%nat)); lia).
      destruct (lookup_lt_is_Some_2 _ _ Ha) as [v Hv]. exists v.
      split; [eapply list_elem_of_lookup_2, Hv|].
      rewrite (Hent _ _ Hv). destruct (decide (a = k)); [contradiction|]. lra.
    - assert (k < length probs)%nat as Ha by (rewrite Hlen; exact Hklt).
      destruct (lookup_lt_is_Some_2 _ _ Ha) as [v Hv]. exists v.
      split; [eapply list_elem_of_lookup_2, Hv|].
      rewrite (Hent _ _ Hv). destruct (decide (k = k)); [|contradiction]. lra. }
  unfold step_body.
  unfold policy, make_epsilon_greedy_policy. rewrite HnA, Hpol, bind_Ret.
  rewrite (choice_negative G random_sample 4 probs _ x ltac:(lia) Hlen Hx Hneg).
  reflexivity.
Qed.

End StepMore.

(** ** The outcome of a run *)

Section RunOutcome.
Context {K : Type} `{Countable K}.
Variable G : Type.
Variable random_sample : G -> Q * G.
Variable env : Env K.
Variables (discount_factor alpha epsilon : Q).
Variables (num_episodes : nat) (e0 : env_state env) (g0 : G).

Local Abbreviation world := (world G env).
Local Abbreviation step_body :=
  (step_body G random_sample env discount_factor alpha epsilon).
Local Abbreviation steps :=
  (steps G random_sample env discount_factor alpha epsilon).
Local Abbreviation episode :=
  (episode G random_sample env discount_factor alpha epsilon).
Local Abbreviation for_episodes :=
  (for_episodes G random_sample env discount_factor alpha epsilon).
Local Abbreviation q_learning_world :=
  (q_learning_world G random_sample env discount_factor alpha epsilon).
Local Abbreviation reachable :=
  (reachable G random_sample env discount_factor alpha epsilon num_episodes e0 g0).
Local Abbreviation env_raises_at :=
  (env_raises_at G random_sample env epsilon num_episodes).

Implicit Types (s state : K) (w : world) (p : point K).

Lemma reachable_step_progress i_episode i state w :
  nA env = 4%nat -> 0 <= epsilon <= 4 # 3 ->
  fst (random_sample (w_rng _ _ w)) < 1 ->
  reachable (Inside i_episode i state) w ->
  exists probs tbl action,
    policy env epsilon (w_Q _ _ w) state = Ret (probs, tbl)
    /\ np.choice G random_sample 4 probs (w_rng _ _ w)
       = Ret (action, snd (random_sample (w_rng _ _ w)))
    /\ (action < 4)%nat
    /\ match step env (w_env _ _ w) action with
       | Ret (next_state, reward, done, e) =>
           exists w', step_body i_episode i state w = Ret (done, next_state, w')
       | Raise x => step_body i_episode i state w = Raise x
       | Diverge => step_body i_episode i state w = Diverge
       end.
Proof.
  intros HnA Heps Hu Hr.
  pose proof (reachable_table_wf _ _ _ _ _ _ _ _ _ _ _ Hr) as Hwf.
  rewrite HnA in Hwf.
  destruct (reachable_stats _ _ _ _ _ _ _ _ _ _ _ Hr) as (L1 & L2 & _).
  pose proof (reachable_inside_lt _ _ _ _ _ _ _ _ _ _ _ Hr) as Hlt.
  simpl in Hlt.
  apply step_body_progress; try assumption; lia.
Qed.

(** X10: the learning code itself does not fail on a run in progress.
    With [env.nA = 4], an exploration rate in [[0, 1]], [alpha] and
    [discount_factor] within the float64 range and a sample below 1,
    at every point of the step loop the policy query returns, the
    sampling returns an action in [0,4) and draws once, and the
    iteration returns (leaving the environment as [step] left it) if
    [step] returns a reward within the float64 range, and raises what
    [step] raises. *)
Theorem iteration_ends_as_step_does i_episode i state w :
  nA env = 4%nat -> 0 <= epsilon <= 1 ->
  in_float64_range alpha -> in_float64_range discount_factor ->
  fst (random_sample (w_rng _ _ w)) < 1 ->
  reachable (Inside i_episode i state) w ->
  exists probs tbl action,
    policy env epsilon (w_Q _ _ w) state = Ret (probs, tbl)
    /\ np.choice G random_sample 4 probs (w_rng _ _ w)
       = Ret (action, snd (random_sample (w_rng _ _ w)))
    /\ (action < 4)%nat
    /\ (forall next_state reward done e,
          step env (w_env _ _ w) action = Ret (next_state, reward, done, e) ->
          in_float64_range reward ->
          exists w', step_body i_episode i state w = Ret (done, next_state, w')
                     /\ w_env _ _ w' = e)
    /\ (forall x, step env (w_env _ _ w) action = Raise x ->
          step_body i_episode i state w = Raise x).
Proof.
  intros HnA [He0 He1] _ _ Hu Hr.
  assert (0 <= epsilon <= 4 # 3) as Heps by (split; lra).
  destruct (reachable_step_progress _ _ _ _ HnA Heps Hu Hr)
    as (probs & tbl & action & Hpol & Hch & Hlt & Hout).
  exists probs, tbl, action.
  split; [exact Hpol|]. split; [exact Hch|]. split; [exact Hlt|]. split.
  - intros ns reward done e Hstep _. rewrite Hstep in Hout.
    destruct Hout as [w' Hb]. exists w'. split; [exact Hb|].
    apply step_body_Ret in Hb as (a' & r' & [Spol Senv _ _ _ _ _ _ _]).
    destruct Spol as (probs' & tbl' & Hpol' & Hch').
    assert (a' = action) as -> by congruence. congruence.
  - intros x Hstep. rewrite Hstep in Hout. exact Hout.
Qed.

Lemma steps_raise fuel i_episode i state w x :
  nA env = 4%nat -> 0 <= epsilon <= 4 # 3 ->
  (forall g, fst (random_sample g) < 1) ->
  reachable (Inside i_episode i state) w ->
  steps fuel i_episode i state w = Raise x ->
  exists p w', reachable p w' /\ env_raises_at p w' x.
Proof.
  intros HnA Heps Hu. revert i state w.
  induction fuel as [|fuel IH]; intros i state w Hr E; [discriminate|].
  simpl in E.
  destruct (reachable_step_progress _ _ _ _ HnA Heps (Hu _) Hr)
    as (probs & tbl & action & Hpol & Hch & Hlt & Hout).
  destruct (step env (w_env _ _ w) action)
    as [[[[ns reward] done] e]|x'|] eqn:Hstep.
  - destruct Hout as [w' Hb]. rewrite Hb, bind_Ret in E.
    destruct done; [discriminate|].
    apply (IH _ _ _ (reach_step _ _ _ _ _ _ _ _ _ _ _ _ _ _ _ Hr Hb) E).
  - rewrite Hout in E. injection E as ->.
    exists (Inside i_episode i state), w. split; [exact Hr|].
    simpl. eauto 10.
  - rewrite Hout in E. discriminate.
Qed.

Lemma for_episodes_raise fuel k i_episode w x :
  nA env = 4%nat -> 0 <= epsilon <= 4 # 3 ->
  (forall g, fst (random_sample g) < 1) ->
  reachable (Between i_episode) w ->
  (i_episode + k <= num_episodes)%nat ->
  for_episodes fuel (seq i_episode k) w = Raise x ->
  exists p w', reachable p w' /\ env_raises_at p w' x.
Proof.
  intros HnA Heps Hu. revert i_episode w.
  induction k as [|k IH]; intros i_episode w Hr Hle E; simpl in E;
    [discriminate|].
  unfold episode in E.
  destruct (reset env (w_env _ _ w)) as [[state e]|x'|] eqn:Hreset.
  - rewrite bind_Ret in E.
    pose proof (reach_reset _ _ _ _ _ _ _ _ _ _ _ _ _ Hr ltac:(lia) Hreset)
      as Hr0.
    destruct (steps fuel i_episode 0 state _) as [w1|x'|] eqn:Hsteps.
    + rewrite bind_Ret in E.
      apply (IH (S i_episode) w1); [|lia|exact E].
      eapply steps_reachable; [exact Hr0 | exact Hsteps].
    + injection E as ->. eapply steps_raise; eassumption.
    + discriminate.
  - injection E as ->. exists (Between i_episode), w.
    split; [exact Hr|]. simpl. split; [lia | exact Hreset].
  - discriminate.
Qed.


(** X12: an exploration rate that is negative or above 4/3 is
    rejected at the first sampling.  With [env.nA = 4], for [epsilon]
    within the float64 range that is at most minus the smallest
    normal float64, or above 4/3, when [reset] returns, a run of at
    least one episode raises ValueError: the policy vector has a
    negative entry.  (Rates in (1, 4/3] are not rejected.) *)
Theorem epsilon_out_of_range_raises fuel (e1 : env_state env) state :
  nA env = 4%nat ->
  in_float64_range epsilon ->
  (epsilon <= - float64_min_normal \/ 4 # 3 < epsilon) ->
  reset env e0 = Ret (state, e1) ->
  q_learning G random_sample env (S fuel) e0 g0 (S num_episodes)
    discount_factor alpha epsilon = Raise ValueError.
Proof.
  intros HnA _ Hout Hreset.
  assert (epsilon < 0 \/ 4 # 3 < epsilon) as Heps.
  { destruct Hout as [Hlow|Hhigh]; [left|right; exact Hhigh].
    assert (0 < float64_min_normal) by reflexivity. lra. }
  unfold q_learning, q_learning_world. simpl.
  unfold episode. simpl w_env. rewrite Hreset, bind_Ret. simpl steps.
  rewrite step_body_bad_epsilon; [reflexivity | exact HnA | exact Heps |].
  rewrite <- HnA. simpl. split; [reflexivity|].
  intros s row Hs. simpl in Hs. rewrite lookup_empty in Hs. discriminate.
Qed.

Lemma steps_shape fuel i_episode i state w w' :
  steps fuel i_episode i state w = Ret w' ->
  exists evs a s r,
    w_trace _ _ w' = w_trace _ _ w ++ evs ++ [EvStep a s r true]
    /\ Forall is_open_step evs.
Proof.
  revert i state w. induction fuel as [|fuel IH]; intros i state w E;
    [discriminate|].
  simpl in E. bind_inv E as [[done ns] w1] Hb. step_inv Hb.
  destruct done.
  - injection E as <-. exists [], action, ns, reward.
    split; [exact Strace | constructor].
  - destruct (IH _ _ _ E) as (evs & a & s & r & Htr & Hall).
    exists (EvStep action ns reward false :: evs), a, s, r. split.
    + rewrite Htr, Strace, <- app_assoc. reflexivity.
    + constructor; [exact I | exact Hall].
Qed.

Lemma for_episodes_shape fuel range w w' :
  for_episodes fuel range w = Ret w' ->
  exists eps : list (list (event K)),
    length eps = length range
    /\ w_trace _ _ w' = w_trace _ _ w ++ concat eps
    /\ Forall episode_shape eps.
Proof.
  revert w. induction range as [|i_episode range IH]; intros w E; simpl in E.
  - injection E as <-. exists []. split; [reflexivity|].
    split; [simpl; rewrite app_nil_r; reflexivity | constructor].
  - bind_inv E as w1 Hep. unfold episode in Hep.
    bind_inv Hep as [s0 e] Hreset.
    destruct (steps_shape _ _ _ _ _ _ Hep) as (evs & a & s & r & Htr & Hall).
    simpl in Htr.
    destruct (IH _ E) as (eps & Hlen & Htr' & Hshape).
    exists ((EvReset s0 :: evs ++ [EvStep a s r true]) :: eps).
    split; [simpl; rewrite Hlen; reflexivity|]. split.
    + rewrite Htr', Htr. simpl. rewrite <- !app_assoc. reflexivity.
    + constructor; [|exact Hshape]. exists s0, evs, a, s, r. auto.
Qed.

(** X9: the calls to the environment follow the episode protocol:
    the history of a returning run is [num_episodes] episodes one
    after the other, each a [reset], then steps that returned
    [done = False], then exactly one step that returned [done = True];
    no step follows a finished episode without a [reset]. *)
Theorem environment_call_protocol fuel w :
  q_learning_world fuel num_episodes e0 g0 = Ret w ->
  exists eps : list (list (event K)),
    length eps = num_episodes
    /\ w_trace _ _ w = concat eps
    /\ Forall episode_shape eps.
Proof.
  intros E. apply for_episodes_shape in E as (eps & Hlen & Htr & Hshape).
  exists eps. rewrite length_seq in Hlen. auto.
Qed.

End RunOutcome.

(** ** Rows of states the run never stepped from; greedy sampling *)

Section SourcesFacts.
Context {K : Type} `{Countable K}.
Implicit Types (trace : list (event K)) (prev : option K) (s : K).

Lemma last_state_snoc prev trace ev :
  last_state prev (trace ++ [ev]) = Some (event_state ev).
Proof. unfold last_state. rewrite last_snoc. reflexivity. Qed.

Lemma last_state_cons prev trace ev :
  last_state prev (ev :: trace) = last_state (Some (event_state ev)) trace.
Proof.
  unfold last_state. destruct trace as [|ev' trace]; [reflexivity|].
  rewrite last_cons_cons.
  destruct (last (ev' :: trace)) eqn:E; [reflexivity|].
  apply last_None in E. discriminate.
Qed.

Lemma sources_snoc_reset prev trace s :
  sources prev (trace ++ [EvReset s]) = sources prev trace.
Proof.
  revert prev. induction trace as [|ev trace IH]; intros prev; simpl.
  - reflexivity.
  - destruct ev as [s0 | a s' r d]; [apply IH|].
    destruct prev; rewrite IH; reflexivity.
Qed.

Lemma sources_snoc_step prev trace a s' r d s :
  last_state prev trace = Some s ->
  sources prev (trace ++ [EvStep a s' r d]) = sources prev trace ++ [s].
Proof.
  revert prev. induction trace as [|ev trace IH]; intros prev Hlast.
  - unfold last_state in Hlast. simpl in Hlast. subst prev. reflexivity.
  - rewrite last_state_cons in Hlast. simpl.
    destruct ev as [s0 | a0 s0 r0 d0]; simpl in Hlast.
    + apply IH, Hlast.
    + destruct prev; rewrite (IH _ Hlast); reflexivity.
Qed.

End SourcesFacts.

Section UntouchedRows.
Context {K : Type} `{Countable K}.
Variable G : Type.
Variable random_sample : G -> Q * G.
Variable env : Env K.
Variables (discount_factor alpha epsilon : Q).
Variables (num_episodes : nat) (e0 : env_state env) (g0 : G).

Local Abbreviation world := (world G env).
Local Abbreviation reachable :=
  (reachable G random_sample env discount_factor alpha epsilon num_episodes e0 g0).

Implicit Types (s state : K) (w : world) (p : point K).

Lemma reachable_sources p w :
  reachable p w ->
  match p with
  | Between _ => True
  | Inside _ _ state => last_state None (w_trace _ _ w) = Some state
  end
  /\ forall s, s ∉ sources None (w_trace _ _ w) ->
       dd_read (w_Q _ _ w) s = np.zeros (nA env).
Proof.
  assert (Hstep : forall i_episode i state w done ns w',
    step_body G random_sample env discount_factor alpha epsilon
      i_episode i state w = Ret (done, ns, w') ->
    last_state None (w_trace _ _ w) = Some state ->
    (forall s, s ∉ sources None (w_trace _ _ w) ->
       dd_read (w_Q _ _ w) s = np.zeros (nA env)) ->
    last_state None (w_trace _ _ w') = Some ns
    /\ forall s, s ∉ sources None (w_trace _ _ w') ->
         dd_read (w_Q _ _ w') s = np.zeros (nA env)).
  { clear p w. intros i_episode i state w done ns w' Hb Hlast IH. step_inv Hb.
    rewrite Strace. split; [apply last_state_snoc|].
    intros s Hs. rewrite (sources_snoc_step _ _ _ _ _ _ _ Hlast) in Hs.
    apply not_elem_of_app in Hs as [Hs Hne].
    rewrite list_elem_of_singleton in Hne.
    rewrite (Sframe s Hne). apply IH, Hs. }
  induction 1 as [ | i_episode w state e Hr [_ IH] Hlt Hreset
                   | i_episode i state w ns w' Hr [IHl IH] Hb
                   | i_episode i state w ns w' Hr [IHl IH] Hb ].
  - split; [exact I|]. intros s _. simpl.
    apply dd_read_miss, lookup_empty.
  - simpl. split; [apply last_state_snoc|].
    intros s Hs. rewrite sources_snoc_reset in Hs. apply IH, Hs.
  - apply (Hstep _ _ _ _ _ _ _ Hb IHl IH).
  - split; [exact I|]. apply (Hstep _ _ _ _ _ _ _ Hb IHl IH).
Qed.

(** X13: a state the run has never stepped from reads as the zero
    row: only the row of the state an action was taken in is ever
    written, so the row of a state that was only ever reached (a
    terminal state, say) or never seen holds [nA] zeros at every point
    of the run. *)
Theorem rows_of_states_never_left_are_zero p w s :
  reachable p w ->
  s ∉ sources None (w_trace _ _ w) ->
  dd_read (w_Q _ _ w) s = np.zeros (nA env).
Proof. intros Hr. apply (proj2 (reachable_sources p w Hr)). Qed.

End UntouchedRows.

(** ** Sampling from a point mass *)

Lemma sum_app (l1 l2 : list Q) : np.sum (l1 ++ l2) == np.sum l1 + np.sum l2.
Proof.
  induction l1 as [|x t IH]; unfold np.sum in *; simpl; [lra|].
  rewrite IH. lra.
Qed.

Lemma cumsum_from_lookup (l : list Q) (acc c : Q) (j : nat) :
  np.cumsum_from acc l !! j = Some c -> c == acc + np.sum (take (S j) l).
Proof.
  revert acc j. induction l as [|x t IH]; intros acc j Hj; [discriminate|].
  destruct j as [|j]; simpl in Hj.
  - injection Hj as <-. unfold np.sum. simpl. destruct t; simpl; lra.
  - apply IH in Hj. rewrite Hj.
    change (take (S (S j)) (x :: t)) with (x :: take (S j) t).
    unfold np.sum. simpl. lra.
Qed.

Lemma sum_take_point (p : list Q) (k n : nat) :
  (forall a v, p !! a = Some v -> v == (if decide (a = k) then 1 else 0)) ->
  (k < length p)%nat ->
  np.sum (take n p) == (if decide (k < n)%nat then 1 else 0).
Proof.
  intros Hp Hk. induction n as [|n IH].
  - rewrite take_0. destruct (decide (k < 0)%nat); [lia|]. reflexivity.
  - destruct (p !! n) as [v|] eqn:Hn.
    + assert (np.sum [v] == v) as Hv by (unfold np.sum; simpl; lra).
      rewrite (take_S_r _ _ _ Hn), sum_app, IH, Hv, (Hp _ _ Hn).
      destruct (decide (k < n)%nat), (decide (n = k)), (decide (k < S n)%nat);
        try lia; lra.
    + apply lookup_ge_None in Hn.
      rewrite take_ge in IH by lia. rewrite take_ge by lia. rewrite IH.
      destruct (decide (k < n)%nat), (decide (k < S n)%nat); try lia; lra.
Qed.

Lemma searchsorted_right_exact (cdf : list Q) (u c : Q) (k : nat) :
  (forall j x, (j < k)%nat -> cdf !! j = Some x -> x <= u) ->
  cdf !! k = Some c -> u < c ->
  np.searchsorted_right cdf u = k.
Proof.
  revert k. induction cdf as [|x t IH]; intros k Hlow Hk Hu; [discriminate|].
  simpl. destruct k as [|k]; simpl in Hk.
  - injection Hk as ->. destruct (Qle_bool c u) eqn:E; [|reflexivity].
    apply Qle_bool_iff in E. lra.
  - assert (x <= u) as Hx by (apply (Hlow 0%nat); [lia | reflexivity]).
    apply Qle_bool_iff in Hx. rewrite Hx. f_equal.
    apply IH; [|exact Hk|exact Hu].
    intros j y Hj Hy. apply (Hlow (S j)); [lia | exact Hy].
Qed.

(** Sampling from the distribution that puts everything on [k]
    yields [k]. *)
Lemma choice_point_mass (G : Type) (random_sample : G -> Q * G)
    (a : nat) (p : list Q) (g g' : G) (k k' : nat) :
  np.choice G random_sample a p g = Ret (k', g') ->
  (forall i v, p !! i = Some v -> v == (if decide (i = k) then 1 else 0)) ->
  (k < length p)%nat ->
  0 <= fst (random_sample g) < 1 ->
  k' = k.
Proof.
  unfold np.choice. intros E Hp Hk [Hu0 Hu1].
  destruct (a =? 0)%nat; [discriminate|].
  destruct (negb (length p =? a)%nat); [discriminate|].
  destruct (existsb (fun x => np.Qlt_bool x 0) p); [discriminate|].
  destruct (Qeq_bool (np.sum p) 1) eqn:Hsum; [|discriminate].
  apply Qeq_bool_iff in Hsum. simpl in E.
  destruct (random_sample g) as [u g1]. injection E as <- <-. simpl in *.
  assert (p <> []) as Hne by (intros ->; simpl in Hk; lia).
  set (L := List.last (np.cumsum p) 0).
  assert (L == 1) as HL.
  { unfold L, np.cumsum. rewrite (cumsum_from_last 0 0 p Hne). lra. }
  assert (Hcdf : forall j c, np.cumsum p !! j = Some c ->
            c == (if decide (k < S j)%nat then 1 else 0)).
  { intros j c Hj. apply cumsum_from_lookup in Hj.
    rewrite Hj, (sum_take_point p k (S j) Hp Hk). lra. }
  assert (k < length (np.cumsum p))%nat as Hk'
    by (unfold np.cumsum; rewrite cumsum_from_length; exact Hk).
  destruct (lookup_lt_is_Some_2 _ _ Hk') as [ck Hck].
  apply (searchsorted_right_exact _ u (ck / L)).
  - intros j x Hj Hx. apply list_lookup_fmap_Some in Hx as (c & -> & Hc).
    rewrite (Hcdf _ _ Hc), HL. destruct (decide (k < S j)%nat); [lia|].
    unfold Qdiv. lra.
  - rewrite list_lookup_fmap, Hck. reflexivity.
  - rewrite (Hcdf _ _ Hck), HL. destruct (decide (k < S k)%nat); [|lia].
    unfold Qdiv. change (/ 1) with 1. lra.
Qed.

Section Greedy.
Context {K : Type} `{Countable K}.
Variable G : Type.
Variable random_sample : G -> Q * G.
Variable env : Env K.
Variables (discount_factor alpha epsilon : Q).

Local Abbreviation world := (world G env).
Local Abbreviation step_body :=
  (step_body G random_sample env discount_factor alpha epsilon).

(** X14: without exploration the loop is greedy: when [epsilon] is 0
    and the sample lies in [0,1), the action an iteration passes to
    [step] is the lowest index at which the row [Q[state]] is
    maximal. *)
Theorem greedy_when_epsilon_is_zero
    i_episode i (state : K) (w : world) done next_state (w' : world) :
  epsilon == 0 ->
  0 <= fst (random_sample (w_rng _ _ w)) < 1 ->
  step_body i_episode i state w = Ret (done, next_state, w') ->
  exists action reward,
    step env (w_env _ _ w) action = Ret (next_state, reward, done, w_env _ _ w')
    /\ first_max (dd_read (w_Q _ _ w) state) action.
Proof.
  intros Heps Hu Hb. step_inv Hb. exists action, reward.
  split; [exact Senv|].
  destruct Spol as (probs & tbl & Hpol & Hch).
  unfold policy, make_epsilon_greedy_policy in Hpol.
  pose proof (policy_fn_Ret _ _ _ _ _ _ Hpol) as (k & c & _ & _ & Hk & Hc & _).
  pose proof (policy_fn_entries _ _ _ _ _ _ _ Hpol Hk) as Hent.
  pose proof (policy_fn_length _ _ _ _ _ _ Hpol) as Hlen.
  apply lookup_replicate in Hc as [_ Hklt].
  assert (action = k) as ->.
  { apply (choice_point_mass _ _ _ _ _ _ k _ Hch); [|lia|exact Hu].
    intros a v Ha. rewrite (Hent a v Ha). unfold Qdiv.
    destruct (decide (a = k)); rewrite Heps; ring. }
  apply argmax_spec, Hk.
Qed.

End Greedy.

(** ** The update rule, and evaluations on concrete environments *)

Import Examples.

(** C2: every returning iteration of the loop, having observed
    [(state, action, reward, next_state)], leaves in [Q[state][action]]
    the old cell plus [alpha] times [reward + discount_factor * m - old],
    where [m] is the maximum of the row [Q[next_state]] as it was before
    the iteration ([nA] cells long on a well-formed table); and on the
    scenario [Q[s][a] = 0], [alpha = 0.5], [discount_factor = 1],
    [reward = 1], [Q[next_s] = [2, 3]] the new cell is 2. *)
Theorem q_update_rule :
  (forall (K : Type) `(Countable K) (G : Type) (random_sample : G -> Q * G)
          (env : Env K) (discount_factor alpha epsilon : Q)
          (i_episode i : nat) (state : K) (w : world G env)
          (done : bool) (next_state : K) (w' : world G env),
      step_body G random_sample env discount_factor alpha epsilon
        i_episode i state w = Ret (done, next_state, w') ->
      exists action reward old max_next b,
        step env (w_env _ _ w) action
        = Ret (next_state, reward, done, w_env _ _ w')
        /\ dd_read (w_Q _ _ w) state !! action = Some old
        /\ dd_read (w_Q _ _ w) next_state !! b = Some max_next
        /\ (forall j y, dd_read (w_Q _ _ w) next_state !! j = Some y ->
              y <= max_next)
        /\ (table_wf (nA env) (w_Q _ _ w) ->
            length (dd_read (w_Q _ _ w) next_state) = nA env)
        /\ dd_read (w_Q _ _ w') state !! action
           = Some (old + alpha * (reward + discount_factor * max_next - old)))
  /\ (exists b tbl' v,
        np.argmax (dd_read scenario_table 1%nat) = Ret b
        /\ td_update 1 (1 # 2) 0%nat 0 1 1%nat b scenario_table = Ret tbl'
        /\ dd_read tbl' 0%nat !! 0%nat = Some v
        /\ v == 2).
Proof.
  split.
  - intros. eapply step_body_update. eassumption.
  - exists 1%nat.
    destruct (td_update 1 (1 # 2) 0%nat 0 1 1%nat 1 scenario_table)
      as [tbl'| |] eqn:E; try (vm_compute in E; discriminate).
    exists tbl'.
    assert (Ret tbl' = td_update 1 (1 # 2) 0%nat 0 1 1%nat 1 scenario_table)
      as E' by (symmetry; exact E).
    vm_compute in E'. injection E' as ->.
    eexists. split; [reflexivity|]. split; [reflexivity|].
    split; [vm_compute; reflexivity|]. reflexivity.
Qed.

Lemma gate_world_run :
  q_learning_world N lcg (gate 4 1) default_discount_factor default_alpha
    default_epsilon 5 1 tt 0%N = Ret gate_world.
Proof. vm_compute. reflexivity. Qed.

(** On two actions the run stops at the first sampling. *)
Lemma sample_space_is_constant_four_witness :
  nA (gate 2 1) <> 0%nat /\ nA (gate 2 1) <> 4%nat
  /\ reset (gate 2 1) tt = Ret (0%nat, tt)
  /\ q_learning N lcg (gate 2 1) 1 tt 0%N 1
       default_discount_factor default_alpha default_epsilon
     = Raise ValueError.
Proof.
  split; [simpl; lia|]. split; [simpl; lia|]. split; [reflexivity|].
  apply (proj1 (sample_space_is_constant_four N lcg (gate 2 1)
                  default_discount_factor default_alpha default_epsilon)
           0%nat 0%nat tt tt 0%N 0%nat); [simpl; lia | simpl; lia | reflexivity].
Defined.

(** The first step of a run on [gate 4 1] obeys the update rule. *)
Lemma q_update_rule_witness :
  exists done next_state w',
    step_body N lcg (gate 4 1) default_discount_factor default_alpha
      default_epsilon 0 0 0%nat (initial_world N (gate 4 1) 1 tt 0%N)
    = Ret (done, next_state, w')
    /\ exists action reward old max_next b,
         step (gate 4 1) tt action = Ret (next_state, reward, done, tt)
         /\ dd_read (mkdd 4 ∅) 0%nat !! action = Some old
         /\ dd_read (mkdd 4 ∅) next_state !! b = Some max_next
         /\ dd_read (w_Q _ _ w') 0%nat !! action
            = Some (old + default_alpha
                          * (reward + default_discount_factor * max_next - old)).
Proof.
  destruct (step_body N lcg (gate 4 1) default_discount_factor default_alpha
              default_epsilon 0 0 0%nat (initial_world N (gate 4 1) 1 tt 0%N))
    as [[[done ns] w']| |] eqn:E; try (vm_compute in E; discriminate).
  exists done, ns, w'. split; [reflexivity|].
  destruct (proj1 q_update_rule _ _ _ _ _ _ _ _ _ _ _ _ _ _ _ _ E)
    as (action & reward & old & m & b & Henv & Hold & Hm & _ & _ & Hnew).
  exists action, reward, old, m, b.
  destruct (w_env _ _ w'). auto.
Defined.

(** The policy on the scenario table, state 1, two actions. *)
Lemma policy_fn_epsilon_greedy_witness :
  (0 < 2)%nat /\ 0 <= default_epsilon <= 1
  /\ length (dd_read scenario_table 1%nat) = 2%nat
  /\ exists p tbl' k,
       make_epsilon_greedy_policy default_epsilon 2 scenario_table 1%nat
       = Ret (p, tbl')
       /\ first_max (dd_read scenario_table 1%nat) k
       /\ length p = 2%nat
       /\ np.sum p == 1.
Proof.
  assert ((0 < 2)%nat) as H0 by lia.
  assert (0 <= default_epsilon <= 1) as H1
    by (split; vm_compute; discriminate).
  assert (length (dd_read scenario_table 1%nat) = 2%nat) as H2 by reflexivity.
  split; [exact H0|]. split; [exact H1|]. split; [exact H2|].
  destruct (policy_fn_epsilon_greedy scenario_table default_epsilon 2 1%nat
              H0 H1 H2)
    as (p & tbl' & k & Hp & Hk & Hlen & _ & _ & Hsum & _).
  exists p, tbl', k. auto.
Defined.

(** One episode on [gate 4 1]: one step is taken, and the recorded
    length is 0. *)
Lemma stats_record_last_index_and_reward_sum_witness :
  q_learning_world N lcg (gate 4 1) default_discount_factor default_alpha
    default_epsilon 5 1 tt 0%N = Ret gate_world
  /\ w_trace _ _ gate_world = [EvReset 0%nat; EvStep 0 1%nat 1 true]
  /\ w_stats _ _ gate_world = mkStats [0] [1]
  /\ exists eps : list (list (event nat)),
       length eps = 1%nat
       /\ w_trace _ _ gate_world = concat eps
       /\ forall i ep, eps !! i = Some ep ->
            episode_record (w_stats _ _ gate_world) i ep.
Proof.
  split; [exact gate_world_run|]. split; [reflexivity|]. split; [reflexivity|].
  exact (stats_record_last_index_and_reward_sum N lcg (gate 4 1)
           default_discount_factor default_alpha default_epsilon
           5 1 tt 0%N gate_world gate_world_run).
Defined.

(** A lookup of the absent state 7 on an empty table of four actions,
    and of the unvisited state 5 after the run on [gate 4 1]. *)
Lemma lazy_zero_default_witness :
  dd_getitem (mkdd 4 (∅ : gmap nat (list Q))) 7%nat
  = ([0; 0; 0; 0], mkdd 4 (<[7%nat := [0; 0; 0; 0]]> ∅))
  /\ dd_read (w_Q _ _ gate_world) 5%nat = [0; 0; 0; 0].
Proof.
  pose proof (lazy_zero_default N lcg (gate 4 1) default_discount_factor
                default_alpha default_epsilon) as (Hmiss & _ & Hrun).
  split.
  - apply (Hmiss (mkdd 4 ∅) 7%nat). reflexivity.
  - apply (Hrun 5%nat 1%nat tt 0%N gate_world gate_world_run).
    unfold visited. simpl. intros Hin.
    apply elem_of_cons in Hin as [Hin|Hin]; [discriminate|].
    apply elem_of_cons in Hin as [Hin|Hin]; [discriminate|].
    apply elem_of_nil in Hin. exact Hin.
Defined.

(** C6 fails as stated: on [gate 4 (-1)] the only episode ends at its
    first step with reward -1, and [episode_rewards[0]] is negative. *)
Lemma episode_reward_negative :
  exists tbl stats v,
    q_learning N lcg (gate 4 (-1)) 5 tt 0%N 1
      default_discount_factor default_alpha default_epsilon
    = Ret (tbl, stats)
    /\ episode_rewards stats !! 0%nat = Some v
    /\ ~ 0 <= v.
Proof.
  destruct (q_learning N lcg (gate 4 (-1)) 5 tt 0%N 1
              default_discount_factor default_alpha default_epsilon)
    as [[tbl stats]| |] eqn:E; try (vm_compute in E; discriminate).
  assert (episode_rewards stats = [-1 # 1]) as Hrew.
  { vm_compute in E. injection E as _ <-. reflexivity. }
  exists tbl, stats, (-1 # 1). split; [reflexivity|].
  split; [rewrite Hrew; reflexivity|].
  intros Hle. vm_compute in Hle. apply Hle. reflexivity.
Qed.

Lemma stats_shape_and_sign_witness :
  q_learning N lcg (gate 4 1) 5 tt 0%N 1
    default_discount_factor default_alpha default_epsilon
  = Ret (w_Q _ _ gate_world, w_stats _ _ gate_world)
  /\ length (episode_lengths (w_stats _ _ gate_world)) = 1%nat
  /\ length (episode_rewards (w_stats _ _ gate_world)) = 1%nat.
Proof.
  destruct (stats_shape_and_sign N lcg (gate 4 1) default_discount_factor
              default_alpha default_epsilon 5 1 tt 0%N gate_world
              gate_world_run) as (Hq & Hl & Hr & _).
  auto.
Defined.

(** C7 fails as stated: queried on a state that is absent, the policy
    function leaves the table with one more key. *)
Lemma policy_fn_inserts_row :
  exists p tbl',
    make_epsilon_greedy_policy default_epsilon 4
      (mkdd 4 (∅ : gmap nat (list Q))) 0%nat = Ret (p, tbl')
    /\ data (mkdd 4 (∅ : gmap nat (list Q))) !! 0%nat = None
    /\ data tbl' !! 0%nat = Some [0; 0; 0; 0]
    /\ tbl' <> mkdd 4 ∅.
Proof.
  destruct (make_epsilon_greedy_policy default_epsilon 4
              (mkdd 4 (∅ : gmap nat (list Q))) 0%nat)
    as [[p tbl']| |] eqn:E; try (vm_compute in E; discriminate).
  exists p, tbl'. split; [reflexivity|]. split; [reflexivity|].
  assert (data tbl' !! 0%nat = Some [0; 0; 0; 0]) as Hs.
  { vm_compute in E. injection E as _ <-. reflexivity. }
  split; [exact Hs|].
  intros ->. simpl in Hs. rewrite lookup_empty in Hs. discriminate.
Qed.

Lemma policy_fn_preserves_lookups_witness :
  exists p tbl',
    make_epsilon_greedy_policy default_epsilon 4
      (mkdd 4 (∅ : gmap nat (list Q))) 0%nat = Ret (p, tbl')
    /\ (forall s', dd_read tbl' s' = dd_read (mkdd 4 ∅) s')
    /\ factory_nA tbl' = 4%nat.
Proof.
  destruct (make_epsilon_greedy_policy default_epsilon 4
              (mkdd 4 (∅ : gmap nat (list Q))) 0%nat)
    as [[p tbl']| |] eqn:E; try (vm_compute in E; discriminate).
  exists p, tbl'. split; [reflexivity|].
  destruct (policy_fn_preserves_lookups _ _ _ _ _ _ E) as (Hr & Hf & _).
  auto.
Defined.

(** On [failing 1] the reset succeeds and the first step raises. *)
Lemma environment_error_propagates_witness :
  exists fuel0, forall fuel, (fuel0 <= fuel)%nat ->
    q_learning N lcg (failing 1) fuel 0%nat 0%N 2
      default_discount_factor default_alpha default_epsilon
    = Raise (EnvError 7).
Proof.
  apply (environment_error_propagates N lcg (failing 1)
           default_discount_factor default_alpha default_epsilon
           2 0%nat 0%N (Inside 0 0 0%nat) failing_world (EnvError 7)).
  - apply (reach_reset N lcg (failing 1) _ _ _ 2 0%nat 0%N 0
             (initial_world N (failing 1) 2 0%nat 0%N) 0%nat 1%nat).
    + apply reach_start.
    + lia.
    + reflexivity.
  - eexists _, _, _, _. split; [vm_compute; reflexivity|].
    split; [vm_compute; reflexivity|]. reflexivity.
Defined.

(** A step of episode 0 leaves the entries of episode 1 alone. *)
Lemma stats_written_only_by_own_episode_witness :
  exists done next_state w',
    step_body N lcg (gate 4 1) default_discount_factor default_alpha
      default_epsilon 0 0 0%nat (initial_world N (gate 4 1) 2 tt 0%N)
    = Ret (done, next_state, w')
    /\ 1%nat <> 0%nat
    /\ same_entry N (gate 4 1) 1 (initial_world N (gate 4 1) 2 tt 0%N) w'.
Proof.
  destruct (step_body N lcg (gate 4 1) default_discount_factor default_alpha
              default_epsilon 0 0 0%nat (initial_world N (gate 4 1) 2 tt 0%N))
    as [[[done ns] w']| |] eqn:E; try (vm_compute in E; discriminate).
  exists done, ns, w'. split; [reflexivity|]. split; [lia|].
  apply (proj1 (stats_written_only_by_own_episode N lcg (gate 4 1)
                  default_discount_factor default_alpha default_epsilon)
           0%nat 0%nat 0%nat _ done ns w' 1%nat E).
  lia.
Defined.

(** ** Evaluations of the further properties *)

Import MoreExamples.

Lemma lcg_below_one (g : N) : fst (lcg g) < 1.
Proof.
  unfold lcg, Qlt. simpl.
  pose proof (N.mod_lt g 8 ltac:(discriminate)). lia.
Qed.

Lemma started_world_reachable :
  reachable N lcg unit_gate default_discount_factor default_alpha
    default_epsilon 1 tt 0%N (Inside 0 0 0%nat) started_world.
Proof.
  apply (reach_reset N lcg unit_gate _ _ _ 1 tt 0%N 0
           (initial_world N unit_gate 1 tt 0%N) 0%nat tt).
  - apply reach_start.
  - lia.
  - reflexivity.
Qed.

(** A row of three cells with its maximum at index 2, queried for two
    actions; and a query for no action at all. *)
Lemma policy_fn_failure_modes_witness :
  first_max (dd_read long_row_table 0%nat) 2
  /\ policy_fn long_row_table default_epsilon 2 0%nat = Raise IndexError
  /\ policy_fn long_row_table default_epsilon 0 0%nat = Raise ZeroDivisionError.
Proof.
  assert (first_max (dd_read long_row_table 0%nat) 2) as Hk
    by (apply argmax_spec; reflexivity).
  split; [exact Hk|]. split.
  - apply (proj1 (proj2 (proj2 (policy_fn_failure_modes long_row_table
                                  default_epsilon 2 0%nat))
                    2%nat ltac:(lia) Hk)).
    lia.
  - apply (proj1 (policy_fn_failure_modes long_row_table
                    default_epsilon 0 0%nat)).
    reflexivity.
Defined.

Lemma policy_fn_repeatable_witness :
  exists p tbl',
    policy_fn (mkdd 4 (∅ : gmap nat (list Q))) default_epsilon 4 0%nat
    = Ret (p, tbl')
    /\ policy_fn tbl' default_epsilon 4 0%nat = Ret (p, tbl').
Proof.
  destruct (policy_fn (mkdd 4 (∅ : gmap nat (list Q))) default_epsilon 4 0%nat)
    as [[p tbl']| |] eqn:E; try (vm_compute in E; discriminate).
  exists p, tbl'. split; [reflexivity|].
  apply (proj1 (policy_fn_repeatable _ _ _ _ _ _ E)).
Defined.

Lemma rows_keep_nA_cells_witness :
  length (dd_read (w_Q _ _ gate_world) 0%nat) = 4%nat
  /\ length (dd_read (w_Q _ _ gate_world) 9%nat) = 4%nat.
Proof.
  pose proof (proj2 (rows_keep_nA_cells N lcg (gate 4 1)
                       default_discount_factor default_alpha default_epsilon
                       1 tt 0%N) 5%nat gate_world gate_world_run) as Hrows.
  split; apply Hrows.
Defined.

Lemma table_keys_are_visited_states_witness :
  visited (w_trace _ _ gate_world) 1%nat
  <-> 1%nat ∈ dom (data (w_Q _ _ gate_world)).
Proof.
  apply (proj2 (table_keys_are_visited_states N lcg (gate 4 1)
                  default_discount_factor default_alpha default_epsilon
                  1 tt 0%N) 5%nat gate_world gate_world_run).
Defined.

Lemma iteration_changes_one_cell_witness :
  exists done next_state w',
    step_body N lcg unit_gate default_discount_factor default_alpha
      default_epsilon 0 0 0%nat started_world = Ret (done, next_state, w')
    /\ exists action,
         forall s a, s <> 0%nat \/ a <> action ->
           dd_read (w_Q _ _ w') s !! a = dd_read (w_Q _ _ started_world) s !! a.
Proof.
  destruct (step_body N lcg unit_gate default_discount_factor default_alpha
              default_epsilon 0 0 0%nat started_world)
    as [[[done ns] w']| |] eqn:E; try (vm_compute in E; discriminate).
  exists done, ns, w'. split; [reflexivity|].
  destruct (iteration_changes_one_cell _ _ _ _ _ _ _ _ _ _ _ _ _ E)
    as (action & reward & _ & _ & Hframe).
  exists action. exact Hframe.
Defined.


Lemma actions_below_four_witness :
  Forall (action_below 4) (w_trace _ _ gate_world).
Proof.
  apply (actions_below_four N lcg (gate 4 1) default_discount_factor
           default_alpha default_epsilon 1 tt 0%N (Between 1) gate_world
           lcg_below_one).
  apply (q_learning_reachable _ _ _ _ _ _ _ _ _ 5), gate_world_run.
Defined.

Lemma environment_call_protocol_witness :
  exists eps : list (list (event nat)),
    length eps = 1%nat
    /\ w_trace _ _ gate_world = concat eps
    /\ Forall episode_shape eps.
Proof.
  exact (environment_call_protocol N lcg (gate 4 1) default_discount_factor
           default_alpha default_epsilon 1 tt 0%N 5 gate_world gate_world_run).
Defined.

Lemma float64_range_of_unit : in_float64_range 1 /\ in_float64_range (1 # 2).
Proof. repeat split; vm_compute; discriminate. Qed.

Lemma iteration_ends_as_step_does_witness :
  nA unit_gate = 4%nat /\ 0 <= default_epsilon <= 1
  /\ in_float64_range default_alpha
  /\ in_float64_range default_discount_factor
  /\ fst (lcg (w_rng _ _ started_world)) < 1
  /\ exists probs tbl action,
       policy unit_gate default_epsilon (w_Q _ _ started_world) 0%nat
       = Ret (probs, tbl)
       /\ np.choice N lcg 4 probs (w_rng _ _ started_world)
          = Ret (action, snd (lcg (w_rng _ _ started_world)))
       /\ (action < 4)%nat
       /\ forall next_state reward done e,
            step unit_gate (w_env _ _ started_world) action
            = Ret (next_state, reward, done, e) ->
            in_float64_range reward ->
            exists w',
              step_body N lcg unit_gate default_discount_factor default_alpha
                default_epsilon 0 0 0%nat started_world
              = Ret (done, next_state, w')
              /\ w_env _ _ w' = e.
Proof.
  assert (nA unit_gate = 4%nat) as H1 by reflexivity.
  assert (0 <= default_epsilon <= 1) as H2
    by (split; vm_compute; discriminate).
  assert (in_float64_range default_alpha) as H3
    by apply float64_range_of_unit.
  assert (in_float64_range default_discount_factor) as H4
    by apply float64_range_of_unit.
  assert (fst (lcg (w_rng _ _ started_world)) < 1) as H5 by reflexivity.
  split; [exact H1|]. split; [exact H2|]. split; [exact H3|].
  split; [exact H4|]. split; [exact H5|].
  destruct (iteration_ends_as_step_does N lcg unit_gate
              default_discount_factor default_alpha default_epsilon
              1 tt 0%N 0 0 0%nat started_world H1 H2 H3 H4 H5
              started_world_reachable)
    as (probs & tbl & action & Hpol & Hch & Hlt & Hret & _).
  exists probs, tbl, action. auto.
Defined.

Lemma failing_rewards_in_range :
  forall e action next_state reward done e',
    step (failing 1) e action = Ret (next_state, reward, done, e') ->
    in_float64_range reward.
Proof.
  intros e action ns reward done e' Hstep. simpl in Hstep.
  destruct (e =? 1)%nat; [discriminate|].
  destruct action; injection Hstep as _ <- _ _;
    split; vm_compute; discriminate.
Qed.


Lemma epsilon_out_of_range_raises_witness :
  nA unit_gate = 4%nat /\ in_float64_range 2
  /\ (2 <= - float64_min_normal \/ 4 # 3 < 2)
  /\ reset unit_gate tt = Ret (0%nat, tt)
  /\ q_learning N lcg unit_gate 1 tt 0%N 1
       default_discount_factor default_alpha 2
     = Raise ValueError.
Proof.
  assert (in_float64_range 2) as H1 by (split; vm_compute; discriminate).
  assert (2 <= - float64_min_normal \/ 4 # 3 < 2) as H2
    by (right; reflexivity).
  split; [reflexivity|]. split; [exact H1|]. split; [exact H2|].
  split; [reflexivity|].
  apply (epsilon_out_of_range_raises N lcg unit_gate default_discount_factor
           default_alpha 2 0 tt 0%N 0 tt 0%nat);
    [reflexivity | exact H1 | exact H2 | reflexivity].
Defined.

(** The terminal state 1 of the run on [gate 4 1] was reached but
    never left. *)
Lemma rows_of_states_never_left_are_zero_witness :
  (1%nat ∉ sources None (w_trace _ _ gate_world))
  /\ dd_read (w_Q _ _ gate_world) 1%nat = [0; 0; 0; 0].
Proof.
  assert (1%nat ∉ sources None (w_trace _ _ gate_world)) as Hs.
  { simpl. intros Hin. apply list_elem_of_singleton in Hin. discriminate. }
  split; [exact Hs|].
  apply (rows_of_states_never_left_are_zero N lcg (gate 4 1)
           default_discount_factor default_alpha default_epsilon 1 tt 0%N
           (Between 1) gate_world 1%nat); [|exact Hs].
  apply (q_learning_reachable _ _ _ _ _ _ _ _ _ 5), gate_world_run.
Defined.

Lemma greedy_when_epsilon_is_zero_witness :
  exists done next_state w',
    step_body N lcg unit_gate default_discount_factor default_alpha 0
      0 0 0%nat started_world = Ret (done, next_state, w')
    /\ exists action reward,
         step unit_gate (w_env _ _ started_world) action
         = Ret (next_state, reward, done, w_env _ _ w')
         /\ first_max (dd_read (w_Q _ _ started_world) 0%nat) action.
Proof.
  destruct (step_body N lcg unit_gate default_discount_factor default_alpha 0
              0 0 0%nat started_world)
    as [[[done ns] w']| |] eqn:E; try (vm_compute in E; discriminate).
  exists done, ns, w'. split; [reflexivity|].
  apply (greedy_when_epsilon_is_zero N lcg unit_gate default_discount_factor
           default_alpha 0 0 0 0%nat started_world done ns w').
  - reflexivity.
  - split; vm_compute; [discriminate | reflexivity].
  - exact E.
Defined.
